(** * Bear / citnames: process forest, breadth-first recognition, tool selection

    A shallow embedding of [source/citnames/source/semantic/Tool.cc] and
    [ToolLD.cc].

    - [std::unordered_map] is a [gmap], [std::unordered_set] a [gset],
      [std::list] a [list]. The maps of the forest hold pointers into the
      input list, which nothing changes during a pass: they hold the
      records here.
    - [unordered_map::at] throws [std::out_of_range] on a missing key: the
      operations that call it return an [option], [None] being the throw.
    - [rust::Result<T>] is [Result T]; the error is the [what()] text of the
      [std::runtime_error].
    - The [while] loop of [Forest::bfs] is a fixpoint on a fuel counter, with
      an outcome that tells a normal return from a throw and from a loop that
      is still running when the fuel is used up.
    - The [spdlog::debug] lines are left out. *)

From Stdlib Require Import ZArith String Ascii.
From stdpp Require Import gmap strings list fin_maps sorting.

Set Warnings "-clear-no-such-hyp".

Open Scope Z_scope.

(** ** Results and outcomes *)

Inductive Result (A : Type) : Type :=
| Ok (value : A)
| Err (what : string).
Arguments Ok {A} value.
Arguments Err {A} what.

Definition is_ok {A} (r : Result A) : bool :=
  match r with Ok _ => true | Err _ => false end.

Definition and_then {A B} (r : Result A) (f : A → Result B) : Result B :=
  match r with Ok a => f a | Err w => Err w end.

Inductive outcome (A : Type) : Type :=
| Returned (value : A)
| Thrown
| Running.
Arguments Returned {A} value.
Arguments Thrown {A}.
Arguments Running {A}.

(** ** The process forest *)

(** [report::Pid]: an integer id, compared with [==] and ordered with [<]. *)
Abbreviation Id := Z (only parsing).

Record Forest (Entry : Type) : Type := mkForest {
  entries : gmap Id Entry;
  nodes : gmap Id (list Id);
  roots : list Id
}.
Arguments mkForest {Entry} entries nodes roots.
Arguments entries {Entry} f.
Arguments nodes {Entry} f.
Arguments roots {Entry} f.

(** The locals of the constructor while it reads the input. *)
Record Scan (Entry : Type) : Type := mkScan {
  s_entries : gmap Id Entry;
  s_nodes : gmap Id (list Id);
  maybe_roots : gset Id;
  non_roots : gset Id
}.
Arguments mkScan {Entry} s_entries s_nodes maybe_roots non_roots.
Arguments s_entries {Entry} s.
Arguments s_nodes {Entry} s.
Arguments maybe_roots {Entry} s.
Arguments non_roots {Entry} s.

Section Forest.
Context {Entry Output : Type}.
Variable id_extractor : Entry → Id.
Variable parent_id_extractor : Entry → Id.

(** [unordered_map::emplace]: no effect when the key is already there. *)
Definition emplace {V} (k : Id) (v : V) (m : gmap Id V) : gmap Id V :=
  match m !! k with
  | Some _ => m
  | None => <[k := v]> m
  end.

(** Body of the first [for] loop (Tool.cc 84-109). *)
Definition scan_entry (st : Scan Entry) (entry : Entry) : Scan Entry :=
  let id := id_extractor entry in
  let parent := parent_id_extractor entry in
  let entries1 := emplace id entry (s_entries st) in
  let nodes1 :=
    match s_nodes st !! id with
    | None => emplace id [] (s_nodes st)
    | Some _ => s_nodes st
    end in
  let nodes2 :=
    match nodes1 !! parent with
    | Some children => <[parent := children ++ [id]]> nodes1
    | None => emplace parent [id] nodes1
    end in
  let maybe1 :=
    if decide (id ∈ maybe_roots st) then maybe_roots st ∖ {[id]}
    else maybe_roots st in
  let non1 := {[id]} ∪ non_roots st in
  let maybe2 :=
    if decide (parent ∈ non1) then maybe1 else {[parent]} ∪ maybe1 in
  mkScan entries1 nodes2 maybe2 non1.

Definition scan_init : Scan Entry := mkScan ∅ ∅ ∅ ∅.

Definition scan (input : list Entry) : Scan Entry :=
  foldl scan_entry scan_init input.

(** Body of the second [for] loop (Tool.cc 112-120), on the pair of
    [new_roots] and [nodes]; [nodes.at(root)] may throw. *)
Definition fix_phantom (ents : gmap Id Entry)
    (acc : option (gset Id * gmap Id (list Id))) (root : Id)
    : option (gset Id * gmap Id (list Id)) :=
  '(new_roots, nds) ← acc;
  match ents !! root with
  | None =>
      children ← nds !! root;
      Some (list_to_set children ∪ new_roots, delete root nds)
  | Some _ => Some ({[root]} ∪ new_roots, nds)
  end.

(** The constructor, for a given iteration order of the two unordered
    sets: [order1] enumerates [maybe_roots], [order2] enumerates
    [new_roots]. [std::list::sort] is a stable merge sort on [<]. *)
Definition Forest_new_with (order1 order2 : gset Id → list Id)
    (input : list Entry) : option (Forest Entry) :=
  let st := scan input in
  '(new_roots, nds) ← foldl (fix_phantom (s_entries st))
                        (Some (∅, s_nodes st)) (order1 (maybe_roots st));
  Some (mkForest (s_entries st) nds (merge_sort Z.le (order2 new_roots))).

Definition Forest_new (input : list Entry) : option (Forest Entry) :=
  Forest_new_with elements elements input.

(** *** Forest::bfs *)

(** The loop's variables, with the ids popped so far as a ghost trace. *)
Record Walk : Type := mkWalk {
  queue : list Id;
  result : list Output;
  visited : list Id
}.

Section Bfs.
Variable F : Forest Entry.
Variable function : Entry → Result (list Output).

(** One iteration of the [while] body, once [id] has been popped. *)
Definition bfs_visit (id : Id) (rest : list Id) (w : Walk) : option Walk :=
  entry ← entries F !! id;
  match function entry with
  | Ok outputs => Some (mkWalk rest (result w ++ outputs) (visited w ++ [id]))
  | Err _ =>
      ids ← nodes F !! id;
      Some (mkWalk (rest ++ ids) (result w) (visited w ++ [id]))
  end.

Fixpoint bfs_loop (fuel : nat) (w : Walk) : outcome Walk :=
  match queue w with
  | [] => Returned w
  | id :: rest =>
      match fuel with
      | O => Running
      | S fuel' =>
          match bfs_visit id rest w with
          | None => Thrown
          | Some w' => bfs_loop fuel' w'
          end
      end
  end.

Definition bfs_start : Walk := mkWalk (roots F) [] [].

Definition bfs_walk (fuel : nat) : outcome Walk := bfs_loop fuel bfs_start.

Definition bfs (fuel : nat) : outcome (list Output) :=
  match bfs_walk fuel with
  | Returned w => Returned (result w)
  | Thrown => Thrown
  | Running => Running
  end.

(** The states the loop of [bfs] goes through. *)
Inductive walk_reach : Walk → Prop :=
| reach_start : walk_reach bfs_start
| reach_step w id rest w' :
    walk_reach w → queue w = id :: rest →
    bfs_visit id rest w = Some w' → walk_reach w'.

(** Whether [function] succeeds on the entry of [id]. *)
Definition recognized (id : Id) : bool :=
  match entries F !! id with
  | Some entry => is_ok (function entry)
  | None => false
  end.

(** What the visit of [id] appends to the result. *)
Definition outputs_at (id : Id) : list Output :=
  match entries F !! id with
  | Some entry =>
      match function entry with Ok outputs => outputs | Err _ => [] end
  | None => []
  end.

(** What the visit of [id] appends to the queue. *)
Definition expand (id : Id) : list Id :=
  if recognized id then [] else default [] (nodes F !! id).

(** Level [n] of the search: the roots, then the children of the nodes
    of the level before on which [function] failed. *)
Fixpoint level (n : nat) : list Id :=
  match n with
  | O => roots F
  | S n' => flat_map expand (level n')
  end.

Fixpoint levels_upto (k : nat) : list Id :=
  match k with
  | O => []
  | S k' => levels_upto k' ++ level k'
  end.

End Bfs.

(** ** Vocabulary of the statements *)

(** Ids of the records whose parent is [k], in log order. *)
Definition children_of (input : list Entry) (k : Id) : list Id :=
  id_extractor <$> filter (λ e, parent_id_extractor e = k) input.

(** The first record of the log with id [k]. *)
Definition first_with_id (input : list Entry) (k : Id) : option Entry :=
  head (filter (λ e, id_extractor e = k) input).

(** The last record of the log with id [k]. *)
Definition last_with_id (input : list Entry) (k : Id) : option Entry :=
  last (filter (λ e, id_extractor e = k) input).

(** The forest of a log, told from the log alone. *)
Record built_from (input : list Entry) (F : Forest Entry) : Prop := {
  built_entries : ∀ k, entries F !! k = first_with_id input k;
  built_nodes : ∀ k,
    nodes F !! k =
      if decide (k ∈ id_extractor <$> input)
      then Some (children_of input k) else None;
  built_roots_sorted : Sorted Z.le (roots F);
  built_roots_NoDup : NoDup (roots F);
  built_roots : ∀ x,
    x ∈ roots F ↔
      ∃ e, e ∈ input ∧ id_extractor e = x ∧
           parent_id_extractor e ∉ id_extractor <$> input
}.

(** An id of the log whose chain of parents leaves the log. *)
Inductive rooted (input : list Entry) : Id → Prop :=
| rooted_top e :
    e ∈ input → parent_id_extractor e ∉ id_extractor <$> input →
    rooted input (id_extractor e)
| rooted_child e :
    e ∈ input → rooted input (parent_id_extractor e) →
    rooted input (id_extractor e).

End Forest.

Arguments built_entries {Entry id_extractor parent_id_extractor input F} _.
Arguments built_nodes {Entry id_extractor parent_id_extractor input F} _.
Arguments built_roots_sorted
  {Entry id_extractor parent_id_extractor input F} _.
Arguments built_roots_NoDup
  {Entry id_extractor parent_id_extractor input F} _.
Arguments built_roots {Entry id_extractor parent_id_extractor input F} _.
Arguments mkWalk {Output} queue result visited.
Arguments queue {Output} w.
Arguments result {Output} w.
Arguments visited {Output} w.

(** ** Tools: select, recognize, transform *)

(** [fs::path] in its native form. *)
Abbreviation path := string (only parsing).

(** [report::Command] and [report::Execution], with the fields this code
    reads. *)
Record Command : Type := mkCommand {
  program : path;
  arguments : list string
}.

Record Execution : Type := mkExecution {
  command : Command;
  pid : Id;
  ppid : Id
}.

Definition Excluded : string :=
  "The compiler is on the exclude list from configuration.".

Definition Unrecognized : string := "No tools recognize this command.".

Section Tools.
Context {Semantic CdbEntry : Type}.

(** [operator==] of [fs::path], which [std::find] calls. *)
Variable path_equal : path → path → bool.

(** The interface [Tool]. *)
Record Tool : Type := mkTool {
  name : string;
  recognize : path → bool;
  compilations : Command → Result (list Semantic)
}.

Record Tools : Type := mkTools {
  tools_ : list Tool;
  to_exclude_ : list path
}.

(** [std::find] over [to_exclude_]. *)
Definition on_exclude_list (T : Tools) (c : Command) : bool :=
  existsb (λ p, path_equal p (program c)) (to_exclude_ T).

(** The [for] loop of [select]: the tools whose [recognize] it has called,
    as a ghost trace, and the tool it returns. *)
Fixpoint first_recognizing (tools : list Tool) (prog : path)
    : list Tool * option Tool :=
  match tools with
  | [] => ([], None)
  | tool :: rest =>
      if recognize tool prog then ([tool], Some tool)
      else let '(asked, found) := first_recognizing rest prog in
           (tool :: asked, found)
  end.

Definition select_traced (T : Tools) (c : Command) : list Tool * Result Tool :=
  if on_exclude_list T c then ([], Err Excluded)
  else
    match first_recognizing (tools_ T) (program c) with
    | (asked, Some tool) => (asked, Ok tool)
    | (asked, None) => (asked, Err Unrecognized)
    end.

Definition select (T : Tools) (c : Command) : Result Tool :=
  snd (select_traced T c).

Definition Tools_recognize (T : Tools) (execution : Execution)
    : Result (list Semantic) :=
  and_then (select T (command execution))
           (λ tool, compilations tool (command execution)).

Definition transform (T : Tools) (into_entry : Semantic → option CdbEntry)
    (fuel : nat) (executions : list Execution) : outcome (list CdbEntry) :=
  match Forest_new pid ppid executions with
  | None => Thrown
  | Some F =>
      match bfs F (Tools_recognize T) fuel with
      | Returned semantics => Returned (omap into_entry semantics)
      | Thrown => Thrown
      | Running => Running
      end
  end.

End Tools.

Arguments Tool : clear implicits.
Arguments Tools : clear implicits.
Arguments mkTool {Semantic} name recognize compilations.
Arguments mkTools {Semantic} tools_ to_exclude_.

(** ** ToolLD *)

(** *** [std::regex], ECMAScript grammar, as far as the pattern needs it *)

Inductive regex : Type :=
| Void
| Eps
| Chr (c : ascii)
| Dot
| Cat (r1 r2 : regex)
| Alt (r1 r2 : regex)
| Star (r : regex)
| Group (r : regex).

(** [.] matches any character but a line terminator; on [char] these are
    LF and CR. *)
Definition line_terminator (c : ascii) : bool :=
  Ascii.eqb c "010" || Ascii.eqb c "013".

Fixpoint nullable (r : regex) : bool :=
  match r with
  | Void => false
  | Eps => true
  | Chr _ => false
  | Dot => false
  | Cat r1 r2 => nullable r1 && nullable r2
  | Alt r1 r2 => nullable r1 || nullable r2
  | Star _ => true
  | Group r => nullable r
  end.

Fixpoint deriv (c : ascii) (r : regex) : regex :=
  match r with
  | Void => Void
  | Eps => Void
  | Chr c' => if Ascii.eqb c c' then Eps else Void
  | Dot => if line_terminator c then Void else Eps
  | Cat r1 r2 =>
      if nullable r1 then Alt (Cat (deriv c r1) r2) (deriv c r2)
      else Cat (deriv c r1) r2
  | Alt r1 r2 => Alt (deriv c r1) (deriv c r2)
  | Star r => Cat (deriv c r) (Star r)
  | Group r => deriv c r
  end.

(** [std::regex_match]: the whole sequence has to match. *)
Fixpoint regex_match (r : regex) (s : list ascii) : bool :=
  match s with
  | [] => nullable r
  | c :: s' => regex_match (deriv c r) s'
  end.

(** The language of a regex. *)
Inductive matches : regex → list ascii → Prop :=
| matches_eps : matches Eps []
| matches_chr c : matches (Chr c) [c]
| matches_dot c : line_terminator c = false → matches Dot [c]
| matches_cat r1 r2 s1 s2 :
    matches r1 s1 → matches r2 s2 → matches (Cat r1 r2) (s1 ++ s2)
| matches_alt_l r1 r2 s : matches r1 s → matches (Alt r1 r2) s
| matches_alt_r r1 r2 s : matches r2 s → matches (Alt r1 r2) s
| matches_star_nil r : matches (Star r) []
| matches_star_app r s1 s2 :
    matches r s1 → matches (Star r) s2 → matches (Star r) (s1 ++ s2)
| matches_group r s : matches r s → matches (Group r) s.

(** The pattern of ToolLD.cc, line 33: a captured run of [.], the letters
    l and d, a captured run of [.]. *)
Definition pattern : regex :=
  Cat (Group (Star Dot)) (Cat (Chr "l") (Cat (Chr "d") (Group (Star Dot)))).

(** [fs::path::filename]: what follows the last directory separator. *)
Fixpoint filename_from (seen : list ascii) (p : list ascii) : list ascii :=
  match p with
  | [] => seen
  | c :: p' =>
      if Ascii.eqb c "/" then filename_from [] p'
      else filename_from (seen ++ [c]) p'
  end.

Definition filename (p : path) : list ascii :=
  filename_from [] (list_ascii_of_string p).

(** [c_str()] read as a C string: the characters before the first NUL. *)
Fixpoint c_str (s : list ascii) : list ascii :=
  match s with
  | [] => []
  | c :: s' => if Ascii.eqb c "000" then [] else c :: c_str s'
  end.

(** [ToolLD::recognize], with the lines it writes to [std::cout]. *)
Definition ToolLD_recognize_traced (prog : path) : list string * bool :=
  let matched := regex_match pattern (c_str (filename prog)) in
  (["Debug Flag. Vikrammm was here"%string;
    string_of_list_ascii (c_str (filename prog));
    if matched then "Check passes"%string else "Check failed"%string],
   regex_match pattern (c_str (filename prog))).

Definition ToolLD_recognize (prog : path) : bool :=
  snd (ToolLD_recognize_traced prog).

Definition ToolLD_name : string := "LD".

(** The filename has ["ld"] somewhere in it. *)
Definition contains_ld (s : list ascii) : Prop :=
  ∃ a b, s = a ++ ["l"; "d"]%char ++ b.

Definition no_line_terminator (s : list ascii) : Prop :=
  Forall (λ c, line_terminator c = false) s.

(** ** Tools::from *)

(** The fields of [Compilation] that [from] reads; [Wrapper] is the type of
    the elements of [compilers_to_recognize]. *)
Record Compilation (Wrapper : Type) : Type := mkCompilation {
  compilers_to_recognize : list Wrapper;
  compilers_to_exclude : list path
}.
Arguments mkCompilation {Wrapper} compilers_to_recognize compilers_to_exclude.
Arguments compilers_to_recognize {Wrapper} c.
Arguments compilers_to_exclude {Wrapper} c.

Section From.
Context {Semantic Wrapper : Type}.

(** The tools of the other files, default constructed, and the constructor
    of [ToolExtendingWrapper]. *)
Variable ToolGcc : Tool Semantic.
Variable ToolClang : Tool Semantic.
Variable ToolWrapper : Tool Semantic.
Variable ToolCuda : Tool Semantic.
Variable ToolExtendingWrapper : Wrapper → Tool Semantic.

(** [ToolLD] with its three members; [compilations] hands the command to
    a [ToolGcc]. *)
Definition ToolLD : Tool Semantic :=
  mkTool ToolLD_name ToolLD_recognize (compilations ToolGcc).

(** The initializer list of [from]. *)
Definition builtin_tools : list (Tool Semantic) :=
  [ToolGcc; ToolClang; ToolWrapper; ToolCuda; ToolLD].

Definition Tools_from (cfg : Compilation Wrapper) : Result (Tools Semantic) :=
  Ok (mkTools
        (builtin_tools ++ (ToolExtendingWrapper <$> compilers_to_recognize cfg))
        (compilers_to_exclude cfg)).

End From.

(** ** More vocabulary: which ids a traversal reaches *)

Section Exposure.
Context {Entry Output : Type}.
Variable id_extractor : Entry → Id.
Variable parent_id_extractor : Entry → Id.
Variable input : list Entry.
Variable F : Forest Entry.
Variable function : Entry → Result (list Output).

(** An id with a record whose parent was not logged, or with a record whose
    parent is exposed and not recognized. *)
Inductive exposed : Id → Prop :=
| exposed_root e :
    e ∈ input → parent_id_extractor e ∉ id_extractor <$> input →
    exposed (id_extractor e)
| exposed_child e :
    e ∈ input → exposed (parent_id_extractor e) →
    recognized F function (parent_id_extractor e) = false →
    exposed (id_extractor e).

(** [descends v x]: a chain of records leads from [x] up to [v]. *)
Inductive descends : Id → Id → Prop :=
| descends_child e :
    e ∈ input → descends (parent_id_extractor e) (id_extractor e)
| descends_step e v :
    e ∈ input → descends v (parent_id_extractor e) →
    descends v (id_extractor e).

End Exposure.

(** ** Concrete logs *)

Definition exec (prog : path) (id parent : Id) : Execution :=
  mkExecution (mkCommand prog []) id parent.

(** A recognition function that succeeds on the programs named [prog], with
    the program as its one output, and fails on the others. *)
Definition recognize_only (prog : path) (e : Execution)
    : Result (list string) :=
  if String.eqb (program (command e)) prog then Ok [program (command e)]
  else Err Unrecognized.

Definition recognize_all (e : Execution) : Result (list string) :=
  Ok [program (command e)].

Definition recognize_none (e : Execution) : Result (list string) :=
  Err Unrecognized.

(** A chain A -> B -> C under a parent that was not logged. *)
Definition chain_log : list Execution :=
  [exec "A" 1 0; exec "B" 2 1; exec "C" 3 2].

(** Id 2 is logged twice, under parent 1 and under the unlogged parent 0. *)
Definition two_parents_log : list Execution :=
  [exec "cc" 1 0; exec "as" 2 1; exec "as" 2 0].

(** Id 1 is logged twice, the second time as its own parent. *)
Definition looping_log : list Execution :=
  [exec "sh" 1 0; exec "sh" 1 1].

(** Two records with id 7. *)
Definition duplicate_log : list Execution :=
  [exec "first" 7 1; exec "second" 7 1].

(** Processes 2 and 3 under a parent 1 that was not logged. *)
Definition phantom_log : list Execution :=
  [exec "a" 2 1; exec "b" 3 1].

(** One record, its own parent. *)
Definition self_parent_log : list Execution := [exec "x" 1 1].

(** A self-parent next to a tree. *)
Definition mixed_log : list Execution :=
  [exec "init" 1 1; exec "sh" 2 0; exec "cc" 3 2; exec "ld" 4 2].

Definition ld_tool : Tool string :=
  mkTool ToolLD_name ToolLD_recognize (λ c, Ok [program c]).

Definition any_tool (n : string) : Tool string :=
  mkTool n (λ _, true) (λ c, Ok [n]).

Definition excluding_ld : Tools string :=
  mkTools [ld_tool] ["/usr/bin/ld"%string].

Definition two_tools : Tools string :=
  mkTools [any_tool "one"; any_tool "two"] [].

(** The filename ld followed by a line feed. *)
Definition ld_newline : path :=
  ("/usr/bin/ld" +:+ String "010" EmptyString)%string.

(** A tool that recognizes the one program [n]. *)
Definition named_tool (n : string) : Tool string :=
  mkTool n (String.eqb n) (λ c, Ok [n]).

Definition sample_cfg : Compilation string :=
  mkCompilation ["/opt/bin/mycc"%string] ["/usr/bin/ld.bfd"%string].

(** [from] on [sample_cfg], with tools that know one program each. *)
Definition sample_tools : Result (Tools string) :=
  Tools_from (named_tool "gcc") (named_tool "clang") (named_tool "ccache")
             (named_tool "nvcc") named_tool sample_cfg.

(** The chain log in another order. *)
Definition chain_log_shuffled : list Execution :=
  [exec "C" 3 2; exec "A" 1 0; exec "B" 2 1].

(** A pid cycle: every parent is logged. *)
Definition cycle_log : list Execution := [exec "a" 1 2; exec "b" 2 1].

(** Two compiler calls under an unlogged parent, the higher pid first. *)
Definition flat_log : list Execution := [exec "cc b.c" 5 0; exec "cc a.c" 3 0].

(** * Proofs *)

Section ForestFacts.
Context {Entry Output : Type}.
Variable id_extractor : Entry → Id.
Variable parent_id_extractor : Entry → Id.

Local Abbreviation Walk := (@Walk Output).
Local Abbreviation scan_entry := (scan_entry id_extractor parent_id_extractor).
Local Abbreviation scan := (scan id_extractor parent_id_extractor).
Local Abbreviation Forest_new_with :=
  (Forest_new_with id_extractor parent_id_extractor).
Local Abbreviation Forest_new := (Forest_new id_extractor parent_id_extractor).
Local Abbreviation children_of :=
  (children_of id_extractor parent_id_extractor).
Local Abbreviation first_with_id := (first_with_id id_extractor).
Local Abbreviation last_with_id := (last_with_id id_extractor).
Local Abbreviation built_from := (built_from id_extractor parent_id_extractor).
Local Abbreviation rooted := (rooted id_extractor parent_id_extractor).

(** ** What the constructor computes *)

Lemma scan_snoc (l : list Entry) (e : Entry) :
  scan (l ++ [e]) = scan_entry (scan l) e.
Proof. unfold scan. by rewrite foldl_app. Qed.

Lemma emplace_lookup {V} (k j : Id) (v : V) (m : gmap Id V) :
  emplace k v m !! j =
    if decide (j = k) then Some (default v (m !! k)) else m !! j.
Proof.
  unfold emplace. destruct (m !! k) as [x|] eqn:Hk; case_decide; subst;
    simplify_map_eq; done.
Qed.

Lemma children_of_snoc (l : list Entry) (e : Entry) (k : Id) :
  children_of (l ++ [e]) k =
    children_of l k ++
      (if decide (parent_id_extractor e = k) then [id_extractor e] else []).
Proof.
  unfold children_of. rewrite filter_app, fmap_app. f_equal.
  rewrite filter_cons, filter_nil. by case_decide.
Qed.

Lemma children_of_nil_iff (l : list Entry) (k : Id) :
  children_of l k = [] ↔ k ∉ parent_id_extractor <$> l.
Proof.
  unfold children_of. induction l as [|e l IH]; simpl.
  - split; [intros _ ?%elem_of_nil; done | done].
  - rewrite filter_cons, not_elem_of_cons. case_decide; simpl.
    + split; [done | intros []; by subst].
    + rewrite IH. naive_solver.
Qed.

Lemma elem_of_children_of (l : list Entry) (k c : Id) :
  c ∈ children_of l k ↔
    ∃ e, e ∈ l ∧ id_extractor e = c ∧ parent_id_extractor e = k.
Proof.
  unfold children_of. rewrite list_elem_of_fmap. split.
  - intros (e & -> & He). apply list_elem_of_filter in He as [? ?]. eauto.
  - intros (e & ? & ? & ?). exists e. split; [done|].
    by apply list_elem_of_filter.
Qed.

Lemma scan_entries (l : list Entry) (k : Id) :
  s_entries (scan l) !! k = first_with_id l k.
Proof.
  unfold first_with_id. induction l as [|e l IH] using rev_ind; [done|].
  rewrite scan_snoc, filter_app. simpl. rewrite emplace_lookup.
  rewrite filter_cons, filter_nil.
  case_decide as Hk; subst.
  - rewrite decide_True by done. rewrite IH.
    by destruct (filter _ l).
  - rewrite decide_False by done. by rewrite app_nil_r.
Qed.

Lemma scan_entry_nodes (st : Scan Entry) (e : Entry) (k : Id) :
  s_nodes (scan_entry st e) !! k =
    if decide (k = parent_id_extractor e)
    then Some (default [] (s_nodes st !! k) ++ [id_extractor e])
    else if decide (k = id_extractor e)
         then Some (default [] (s_nodes st !! k))
         else s_nodes st !! k.
Proof.
  simpl.
  set (id := id_extractor e). set (parent := parent_id_extractor e).
  set (nodes1 := match s_nodes st !! id with
                 | None => emplace id [] (s_nodes st)
                 | Some _ => s_nodes st end).
  assert (Hn1 : ∀ j, nodes1 !! j =
            if decide (j = id) then Some (default [] (s_nodes st !! id))
            else s_nodes st !! j).
  { intros j. unfold nodes1.
    destruct (s_nodes st !! id) as [c|] eqn:Hid.
    - case_decide; subst; by rewrite ?Hid.
    - rewrite emplace_lookup, Hid. done. }
  destruct (decide (k = parent_id_extractor e)) as [->|Hkp].
  - fold parent. rewrite decide_True by done.
    pose proof (Hn1 parent) as Hp.
    destruct (nodes1 !! parent) as [c|] eqn:Hc.
    + rewrite lookup_insert_eq. f_equal. f_equal.
      case_decide as H2; [rewrite H2; by simplify_eq | by rewrite <- Hp].
    + rewrite emplace_lookup, decide_True, Hc by done. simpl.
      case_decide as H2; [done|]. by rewrite <- Hp.
  - fold parent in Hkp. rewrite decide_False by done.
    destruct (nodes1 !! parent) as [c|] eqn:Hc.
    + rewrite lookup_insert_ne, Hn1 by done. by case_decide; subst.
    + rewrite emplace_lookup, decide_False, Hn1 by done.
      by case_decide; subst.
Qed.

Lemma scan_nodes (l : list Entry) (k : Id) :
  s_nodes (scan l) !! k =
    if decide (k ∈ id_extractor <$> l ∨ k ∈ parent_id_extractor <$> l)
    then Some (children_of l k) else None.
Proof.
  induction l as [|e l IH] using rev_ind.
  - simpl. apply lookup_empty.
  - rewrite scan_snoc, scan_entry_nodes, IH, children_of_snoc.
    rewrite !fmap_app. simpl.
    assert (Hd : default [] (if decide (k ∈ id_extractor <$> l ∨
                                         k ∈ parent_id_extractor <$> l)
                             then Some (children_of l k) else None)
                 = children_of l k).
    { case_decide as Hk; [done|]. simpl. symmetry.
      apply children_of_nil_iff. tauto. }
    repeat case_decide; subst; rewrite ?Hd, ?app_nil_r; try done;
      try (exfalso; set_solver).
Qed.

Lemma scan_non_roots (l : list Entry) :
  non_roots (scan l) = list_to_set (id_extractor <$> l).
Proof.
  induction l as [|e l IH] using rev_ind; [done|].
  rewrite scan_snoc. simpl. rewrite IH, fmap_app. simpl. set_solver.
Qed.

Lemma scan_maybe_roots (l : list Entry) (k : Id) :
  k ∈ maybe_roots (scan l) ↔
    k ∈ parent_id_extractor <$> l ∧ k ∉ id_extractor <$> l.
Proof.
  revert k. induction l as [|e l IH] using rev_ind; intros k.
  - simpl. rewrite elem_of_nil. set_solver.
  - rewrite scan_snoc. simpl. rewrite scan_non_roots, !fmap_app. simpl.
    rewrite elem_of_app, not_elem_of_app, !list_elem_of_singleton.
    pose proof (IH k) as IHk. pose proof (IH (id_extractor e)) as IHi.
    pose proof (IH (parent_id_extractor e)) as IHp.
    destruct (decide (k = id_extractor e));
      destruct (decide (k = parent_id_extractor e));
      repeat case_decide; set_unfold; naive_solver.
Qed.

Lemma first_with_id_Some (l : list Entry) (k : Id) (e : Entry) :
  first_with_id l k = Some e → e ∈ l ∧ id_extractor e = k.
Proof.
  unfold first_with_id. intros H.
  assert (He : e ∈ filter (λ e, id_extractor e = k) l).
  { destruct (filter _ l); simplify_eq/=. left. }
  by apply list_elem_of_filter in He as [? ?].
Qed.

Lemma first_with_id_None (l : list Entry) (k : Id) :
  first_with_id l k = None ↔ k ∉ id_extractor <$> l.
Proof.
  unfold first_with_id. rewrite list_elem_of_fmap. split.
  - intros H (e & -> & He).
    assert (He' : e ∈ filter (λ e', id_extractor e' = id_extractor e) l)
      by by apply list_elem_of_filter.
    destruct (filter _ l); [by apply elem_of_nil in He' | done].
  - intros H. destruct (filter _ l) as [|e l'] eqn:Hf; [done|].
    exfalso. apply H. exists e.
    assert (He : e ∈ filter (λ e, id_extractor e = k) l)
      by (rewrite Hf; left).
    apply list_elem_of_filter in He as [? ?]. done.
Qed.

Lemma first_with_id_is_Some (l : list Entry) (k : Id) :
  is_Some (first_with_id l k) ↔ k ∈ id_extractor <$> l.
Proof.
  rewrite <- not_eq_None_Some, first_with_id_None.
  destruct (decide (k ∈ id_extractor <$> l)); naive_solver.
Qed.

(** The second loop, over any duplicate-free enumeration [rs]: it does
    not throw as long as each phantom in [rs] has a children list, and its
    outcome is fixed by the set of the elements of [rs]. *)
Lemma fix_phantoms_spec (ents : gmap Id Entry) (rs : list Id)
    (acc : gset Id) (nds : gmap Id (list Id)) :
  NoDup rs →
  (∀ r, r ∈ rs → ents !! r = None → is_Some (nds !! r)) →
  ∃ new_roots nds',
    foldl (fix_phantom ents) (Some (acc, nds)) rs = Some (new_roots, nds') ∧
    (∀ x, x ∈ new_roots ↔
          x ∈ acc ∨ ∃ r, r ∈ rs ∧
            match ents !! r with
            | None => x ∈ default [] (nds !! r)
            | Some _ => x = r
            end) ∧
    (∀ k, nds' !! k =
          if decide (k ∈ rs ∧ ents !! k = None) then None else nds !! k).
Proof.
  revert acc nds. induction rs as [|r rs IH]; intros acc nds Hnd Hpre.
  - exists acc, nds. split; [done|]. split.
    + intros x. split; [by left|]. intros [?|(r & Hr & _)]; [done|].
      by apply elem_of_nil in Hr.
    + intros k. rewrite decide_False; [done|]. intros [Hk _].
      by apply elem_of_nil in Hk.
  - apply NoDup_cons in Hnd as [Hr Hnd]. simpl.
    destruct (ents !! r) as [e|] eqn:He.
    + destruct (IH ({[r]} ∪ acc) nds Hnd) as (nr & nds' & Hf & Hroots & Hnds).
      { intros r' Hr' ?. apply Hpre; [by right | done]. }
      exists nr, nds'. split; [done|]. split.
      * intros x. rewrite Hroots, elem_of_union, elem_of_singleton. split.
        -- intros [[->|Hx]|(r' & Hr' & Hm)].
           ++ right. exists r. rewrite He. split; [left | done].
           ++ left. exact Hx.
           ++ right. exists r'. split; [by right | done].
        -- intros [Hx|(r' & Hr' & Hm)].
           ++ left. right. exact Hx.
           ++ apply elem_of_cons in Hr' as [->|Hr'].
              ** rewrite He in Hm. left. left. exact Hm.
              ** right. exists r'. split; done.
      * intros k. rewrite Hnds.
        destruct (decide (k = r)) as [->|Hkr].
        -- rewrite !decide_False; [done | |]; intros [_ ?]; congruence.
        -- apply decide_ext. rewrite elem_of_cons. tauto.
    + destruct (Hpre r) as [ch Hch]; [left | done |]. rewrite Hch. simpl.
      destruct (IH (list_to_set ch ∪ acc) (delete r nds) Hnd)
        as (nr & nds' & Hf & Hroots & Hnds).
      { intros r' Hr' ?. rewrite lookup_delete_ne by (by intros ->).
        apply Hpre; [by right | done]. }
      exists nr, nds'. split; [done|]. split.
      * intros x. rewrite Hroots, elem_of_union, elem_of_list_to_set. split.
        -- intros [[Hx|Hx]|(r' & Hr' & Hm)].
           ++ right. exists r. rewrite He, Hch. split; [left | done].
           ++ left. exact Hx.
           ++ right. exists r'. split; [by right|].
              rewrite lookup_delete_ne in Hm by (by intros ->). done.
        -- intros [Hx|(r' & Hr' & Hm)].
           ++ left. right. exact Hx.
           ++ apply elem_of_cons in Hr' as [->|Hr'].
              ** rewrite He, Hch in Hm. left. left. exact Hm.
              ** right. exists r'. split; [done|].
                 rewrite lookup_delete_ne by (by intros ->). done.
      * intros k. rewrite Hnds.
        destruct (decide (k = r)) as [->|Hkr].
        -- rewrite lookup_delete_eq.
           rewrite (decide_True (P := r ∈ r :: rs ∧ _)); [|split; [left|done]].
           by case_decide.
        -- rewrite lookup_delete_ne by done.
           apply decide_ext. rewrite elem_of_cons. tauto.
Qed.

Lemma built_from_unique (input : list Entry) (F1 F2 : Forest Entry) :
  built_from input F1 → built_from input F2 → F1 = F2.
Proof.
  intros [He1 Hn1 Hs1 Hd1 Hr1] [He2 Hn2 Hs2 Hd2 Hr2].
  destruct F1 as [e1 n1 r1], F2 as [e2 n2 r2]. simpl in *. f_equal.
  - apply map_eq. intros k. by rewrite He1, He2.
  - apply map_eq. intros k. by rewrite Hn1, Hn2.
  - apply (Sorted_unique Z.le); [done..|].
    apply NoDup_Permutation; [done..|]. intros x. by rewrite Hr1, Hr2.
Qed.

Lemma Forest_new_with_built (order1 order2 : gset Id → list Id)
    (input : list Entry) :
  (∀ X, order1 X ≡ₚ elements X) →
  (∀ X, order2 X ≡ₚ elements X) →
  ∃ F, Forest_new_with order1 order2 input
         = Some F ∧ built_from input F.
Proof.
  intros Ho1 Ho2. unfold Forest_new_with.
  set (st := scan input).
  assert (Hmr : ∀ r, r ∈ order1 (maybe_roots st) ↔
            r ∈ parent_id_extractor <$> input ∧ r ∉ id_extractor <$> input).
  { intros r. rewrite Ho1, elem_of_elements. apply scan_maybe_roots. }
  destruct (fix_phantoms_spec (s_entries st) (order1 (maybe_roots st))
              ∅ (s_nodes st)) as (nr & nds & -> & Hroots & Hnds).
  { rewrite Ho1. apply NoDup_elements. }
  { intros r [Hr _]%Hmr _. unfold st. rewrite scan_nodes.
    rewrite decide_True by by right. done. }
  simpl. eexists. split; [done|].
  split; simpl.
  - intros k. apply scan_entries.
  - intros k. rewrite Hnds. unfold st. rewrite scan_entries, scan_nodes.
    pose proof (Hmr k) as Hk. unfold st in Hk.
    pose proof (first_with_id_None input k) as Hk'.
    repeat case_decide; try done; exfalso; tauto.
  - apply Sorted_merge_sort. intros x y. apply Z.le_total.
  - rewrite merge_sort_Permutation, Ho2. apply NoDup_elements.
  - intros x. rewrite merge_sort_Permutation, Ho2, elem_of_elements, Hroots.
    split.
    + intros [Hx|(r & Hr & Hm)]; [by apply not_elem_of_empty in Hx|].
      apply Hmr in Hr as [Hr1 Hr2].
      unfold st in Hm. rewrite scan_entries in Hm.
      pose proof Hr2 as Hr3. apply first_with_id_None in Hr3.
      rewrite Hr3, scan_nodes in Hm.
      rewrite decide_True in Hm by by right. simpl in Hm.
      apply elem_of_children_of in Hm as (e & ? & ? & ?).
      exists e. by subst.
    + intros (e & He & <- & Hp). right.
      exists (parent_id_extractor e). split.
      * apply Hmr. split; [|done]. apply list_elem_of_fmap. eauto.
      * unfold st. rewrite scan_entries.
        pose proof Hp as Hp'. apply first_with_id_None in Hp'. rewrite Hp'.
        rewrite scan_nodes, decide_True.
        -- simpl. apply elem_of_children_of. eauto.
        -- right. apply list_elem_of_fmap. eauto.
Qed.

Lemma Forest_new_built (input : list Entry) :
  ∃ F, Forest_new input = Some F ∧
       built_from input F.
Proof. by apply Forest_new_with_built. Qed.

(** ** What the traversal does on a built forest *)

Lemma unique_entry (input : list Entry) (e1 e2 : Entry) :
  NoDup (id_extractor <$> input) → e1 ∈ input → e2 ∈ input →
  id_extractor e1 = id_extractor e2 → e1 = e2.
Proof.
  induction input as [|e l IH]; intros Hnd H1 H2 Heq.
  - by apply elem_of_nil in H1.
  - rewrite fmap_cons in Hnd. apply NoDup_cons in Hnd as [Hne Hnd].
    apply elem_of_cons in H1 as [->|H1]; apply elem_of_cons in H2 as [->|H2].
    + done.
    + exfalso. apply Hne. rewrite Heq. apply list_elem_of_fmap. eauto.
    + exfalso. apply Hne. rewrite <- Heq. apply list_elem_of_fmap. eauto.
    + by apply IH.
Qed.

Lemma children_of_NoDup (input : list Entry) (k : Id) :
  NoDup (id_extractor <$> input) → NoDup (children_of input k).
Proof.
  intros Hnd. apply (sublist_NoDup _ _ Hnd). unfold children_of.
  apply fmap_sublist, sublist_filter.
Qed.

Lemma bfs_loop_reach (F : Forest Entry)
    (function : Entry → Result (list Output)) (fuel : nat) (w w' : Walk) :
  walk_reach F function w → bfs_loop F function fuel w = Returned w' →
  walk_reach F function w' ∧ queue w' = [].
Proof.
  revert w. induction fuel as [|fuel IH]; intros w Hw; simpl.
  - destruct (queue w) eqn:Hq; [|done]. intros [= <-]. done.
  - destruct (queue w) as [|id rest] eqn:Hq; [intros [= <-]; done|].
    destruct (bfs_visit F function id rest w) as [w1|] eqn:Hv; [|done].
    apply IH. by eapply reach_step.
Qed.

Section BfsFacts.
Variable input : list Entry.
Variable F : Forest Entry.
Variable function : Entry → Result (list Output).
Hypothesis Hbuilt : built_from input F.

Lemma expand_built (id : Id) :
  id ∈ id_extractor <$> input →
  expand F function id =
    if recognized F function id then [] else children_of input id.
Proof.
  intros Hid. unfold expand. rewrite (built_nodes Hbuilt).
  by rewrite decide_True.
Qed.

Lemma elem_of_expand (id c : Id) :
  c ∈ expand F function id →
  recognized F function id = false ∧ c ∈ children_of input id ∧
  id ∈ id_extractor <$> input.
Proof.
  unfold expand. destruct (recognized F function id).
  - by intros ?%elem_of_nil.
  - rewrite (built_nodes Hbuilt). case_decide; simpl; [done|].
    by intros ?%elem_of_nil.
Qed.

Lemma children_logged (k c : Id) :
  c ∈ children_of input k → c ∈ id_extractor <$> input.
Proof.
  intros (e & ? & <- & _)%elem_of_children_of.
  apply list_elem_of_fmap. eauto.
Qed.

Lemma roots_logged (x : Id) : x ∈ roots F → x ∈ id_extractor <$> input.
Proof.
  intros (e & ? & <- & _)%(built_roots Hbuilt).
  apply list_elem_of_fmap. eauto.
Qed.

(** The visit of a logged id never throws, and has one shape for both
    branches. *)
Lemma bfs_visit_built (id : Id) (rest : list Id) (w : Walk) :
  id ∈ id_extractor <$> input →
  bfs_visit F function id rest w =
    Some (mkWalk (rest ++ expand F function id)
                 (result w ++ outputs_at F function id)
                 (visited w ++ [id])).
Proof.
  intros Hid. unfold bfs_visit, expand, recognized, outputs_at.
  rewrite (built_nodes Hbuilt), decide_True by done.
  pose proof Hid as [e He]%first_with_id_is_Some.
  rewrite (built_entries Hbuilt), He. simpl.
  destruct (function e); simpl; by rewrite app_nil_r.
Qed.

Lemma walk_reach_built_ind (P : Walk → Prop) :
  P (bfs_start F) →
  (∀ w id rest,
      walk_reach F function w → P w → queue w = id :: rest →
      id ∈ id_extractor <$> input →
      P (mkWalk (rest ++ expand F function id)
                (result w ++ outputs_at F function id)
                (visited w ++ [id]))) →
  ∀ w, walk_reach F function w → P w.
Proof.
  intros Hstart Hstep w Hw.
  cut (P w ∧ ∀ x, x ∈ queue w → x ∈ id_extractor <$> input); [tauto|].
  induction Hw as [|w id rest w' Hw [IH1 IH2] Hq Hv].
  - split; [done|]. apply roots_logged.
  - assert (Hid : id ∈ id_extractor <$> input) by (apply IH2; rewrite Hq; left).
    rewrite bfs_visit_built in Hv by done. injection Hv as <-. split.
    + by apply Hstep.
    + simpl. intros x [Hx|Hx]%elem_of_app.
      * apply IH2. rewrite Hq. by right.
      * apply elem_of_expand in Hx as (_ & Hx & _). by eapply children_logged.
Qed.

Lemma reach_logged (w : Walk) :
  walk_reach F function w →
  ∀ x, x ∈ visited w ++ queue w → x ∈ id_extractor <$> input.
Proof.
  revert w. apply (walk_reach_built_ind (λ w,
    ∀ x, x ∈ visited w ++ queue w → x ∈ id_extractor <$> input)).
  - apply roots_logged.
  - intros w id rest _ IH Hq Hid. simpl. rewrite Hq in IH. intros x.
    rewrite !elem_of_app, list_elem_of_singleton.
    intros [[Hx| ->]|[Hx|Hx]]; [| done | |].
    + apply IH, elem_of_app. by left.
    + apply IH, elem_of_app. right. by right.
    + apply elem_of_expand in Hx as (_ & Hx & _). by eapply children_logged.
Qed.

(** No visit throws. *)
Lemma bfs_visit_reach (w : Walk) (id : Id) (rest : list Id) :
  walk_reach F function w → queue w = id :: rest →
  is_Some (bfs_visit F function id rest w).
Proof.
  intros Hw Hq. rewrite bfs_visit_built; [done|].
  apply (reach_logged w Hw). rewrite Hq, elem_of_app. right. left.
Qed.

Lemma bfs_loop_no_throw (fuel : nat) (w : Walk) :
  walk_reach F function w → bfs_loop F function fuel w ≠ Thrown.
Proof.
  revert w. induction fuel as [|fuel IH]; intros w Hw; simpl.
  - by destruct (queue w).
  - destruct (queue w) as [|id rest] eqn:Hq; [done|].
    destruct (bfs_visit_reach w id rest Hw Hq) as [w' Hv]. rewrite Hv.
    apply IH. by eapply reach_step.
Qed.

(** The queue discipline: the ids popped so far are whole levels followed
    by the part [done] of the current level, and the queue holds the rest of
    that level followed by what [done] has put on the next one. *)
Lemma reach_levels (w : Walk) :
  walk_reach F function w →
  result w = flat_map (outputs_at F function) (visited w) ∧
  ∃ k done todo,
    level F function k = done ++ todo ∧
    visited w = levels_upto F function k ++ done ∧
    queue w = todo ++ flat_map (expand F function) done.
Proof.
  revert w. apply (walk_reach_built_ind (λ w,
    result w = flat_map (outputs_at F function) (visited w) ∧
    ∃ k done todo,
      level F function k = done ++ todo ∧
      visited w = levels_upto F function k ++ done ∧
      queue w = todo ++ flat_map (expand F function) done)).
  - split; [done|]. exists O, [], (roots F). simpl. by rewrite app_nil_r.
  - intros w id rest _ [Hres (k & done & todo & Hl & Hv & Hq')] Hq _. simpl.
    split.
    { rewrite flat_map_app, Hres. simpl. by rewrite app_nil_r. }
    rewrite Hq' in Hq. destruct todo as [|t todo]; simpl in Hq.
    + exists (S k), [id], rest. simpl. rewrite app_nil_r in Hl.
      rewrite Hl, Hq, Hv, app_nil_r. by rewrite <- app_assoc.
    + injection Hq as -> <-. exists k, (done ++ [id]), todo.
      rewrite Hl, Hv, flat_map_app. simpl.
      by rewrite app_nil_r, <- !app_assoc.
Qed.

(** Every id that is popped or queued has a chain of parents that leaves
    the log. *)
Lemma reach_rooted (w : Walk) :
  walk_reach F function w →
  ∀ x, x ∈ visited w ++ queue w → rooted input x.
Proof.
  revert w. apply (walk_reach_built_ind (λ w,
    ∀ x, x ∈ visited w ++ queue w → rooted input x)).
  - simpl. intros x (e & ? & <- & ?)%(built_roots Hbuilt).
    by apply rooted_top.
  - intros w id rest _ IH Hq Hid. simpl. rewrite Hq in IH. intros x.
    rewrite !elem_of_app, list_elem_of_singleton.
    intros [[Hx| ->]|[Hx|Hx]].
    + apply IH, elem_of_app. by left.
    + apply IH, elem_of_app. right. left.
    + apply IH, elem_of_app. right. by right.
    + apply elem_of_expand in Hx as (_ & Hx & _).
      apply elem_of_children_of in Hx as (e & ? & <- & <-).
      apply rooted_child; [done|]. apply IH, elem_of_app. right. left.
Qed.

(** Nothing is lost: the roots, and what the popped ids put on the queue,
    are popped or still queued. *)
Lemma reach_closed (w : Walk) :
  walk_reach F function w →
  (∀ x, x ∈ roots F → x ∈ visited w ++ queue w) ∧
  (∀ p x, p ∈ visited w → x ∈ expand F function p →
          x ∈ visited w ++ queue w).
Proof.
  revert w. apply (walk_reach_built_ind (λ w,
    (∀ x, x ∈ roots F → x ∈ visited w ++ queue w) ∧
    (∀ p x, p ∈ visited w → x ∈ expand F function p →
            x ∈ visited w ++ queue w))).
  - split; [done|]. simpl. by intros p x ?%elem_of_nil.
  - intros w id rest _ [IH1 IH2] Hq Hid. simpl. rewrite Hq in IH1, IH2.
    assert (Hmono : ∀ x, x ∈ visited w ++ id :: rest →
              x ∈ (visited w ++ [id]) ++ rest ++ expand F function id).
    { intros x. rewrite !elem_of_app, elem_of_cons, list_elem_of_singleton.
      tauto. }
    split.
    + intros x Hx. by apply Hmono, IH1.
    + intros p x [Hp| ->%list_elem_of_singleton]%elem_of_app Hx.
      * by eapply Hmono, IH2.
      * rewrite !elem_of_app. right. by right.
Qed.

(** With unique ids in the log, no id is ever queued twice, and every id
    popped or queued is a root or was queued by a popped parent. *)
Lemma reach_NoDup (w : Walk) :
  NoDup (id_extractor <$> input) →
  walk_reach F function w →
  NoDup (visited w ++ queue w) ∧
  (∀ x, x ∈ visited w ++ queue w →
        x ∈ roots F ∨ ∃ p, p ∈ visited w ∧ x ∈ expand F function p).
Proof.
  intros Hnd. revert w. apply (walk_reach_built_ind (λ w,
    NoDup (visited w ++ queue w) ∧
    (∀ x, x ∈ visited w ++ queue w →
          x ∈ roots F ∨ ∃ p, p ∈ visited w ∧ x ∈ expand F function p))).
  - simpl. split; [apply (built_roots_NoDup Hbuilt) | by left].
  - intros w id rest Hw [IH1 IH2] Hq Hid. simpl. rewrite Hq in IH1, IH2.
    replace ((visited w ++ [id]) ++ rest ++ expand F function id)
      with ((visited w ++ id :: rest) ++ expand F function id)
      by (by rewrite <- !app_assoc).
    split.
    + apply NoDup_app. split; [done|]. split.
      * intros x Hx Hc.
        apply elem_of_expand in Hc as (_ & Hc & _).
        apply elem_of_children_of in Hc as (e & He & Hxe & Hpe).
        destruct (IH2 x Hx) as [Hr|(p & Hp & Hxp)].
        -- apply (built_roots Hbuilt) in Hr as (e' & He' & Hxe' & Hpe').
           assert (e' = e) as -> by (eapply unique_entry; eauto; congruence).
           apply Hpe'. by rewrite Hpe.
        -- apply elem_of_expand in Hxp as (_ & Hxp & _).
           apply elem_of_children_of in Hxp as (e' & He' & Hxe' & Hpe').
           assert (e' = e) as -> by (eapply unique_entry; eauto; congruence).
           apply NoDup_app in IH1 as (_ & IH1 & _).
           apply (IH1 p Hp). rewrite <- Hpe', Hpe. left.
      * unfold expand. destruct (recognized F function id); [constructor|].
        rewrite (built_nodes Hbuilt), decide_True by done. simpl.
        by apply children_of_NoDup.
    + intros x [Hx|Hx]%elem_of_app.
      * destruct (IH2 x Hx) as [?|(p & Hp & ?)]; [by left|].
        right. exists p. split; [|done]. apply elem_of_app. by left.
      * right. exists id. split; [|done]. apply elem_of_app. right. left.
Qed.

(** With unique ids, [length input] iterations are enough. *)
Lemma bfs_loop_returns (fuel : nat) (w : Walk) :
  NoDup (id_extractor <$> input) →
  walk_reach F function w →
  (length input - length (visited w) ≤ fuel)%nat →
  ∃ w', bfs_loop F function fuel w = Returned w'.
Proof.
  intros Hnd. revert w. induction fuel as [|fuel IH]; intros w Hw Hlen.
  - assert (Hle : (length (visited w ++ queue w) ≤ length input)%nat).
    { rewrite <- (length_fmap id_extractor input). apply submseteq_length.
      apply NoDup_submseteq; [by apply reach_NoDup | by apply reach_logged]. }
    rewrite length_app in Hle. simpl.
    destruct (queue w); [eauto | simpl in Hle; lia].
  - simpl. destruct (queue w) as [|id rest] eqn:Hq; [eauto|].
    destruct (bfs_visit_reach w id rest Hw Hq) as [w' Hv]. rewrite Hv.
    apply IH; [by eapply reach_step|].
    rewrite bfs_visit_built in Hv.
    + injection Hv as <-. simpl. rewrite length_app. simpl. lia.
    + apply (reach_logged w Hw). rewrite Hq, elem_of_app. right. left.
Qed.

(** When [function] fails everywhere, every rooted id has been popped by
    the time the queue is empty. *)
Lemma reach_all_rooted (w : Walk) :
  walk_reach F function w → queue w = [] →
  (∀ id, recognized F function id = false) →
  ∀ x, rooted input x → x ∈ visited w.
Proof.
  intros Hw Hq Hfail x Hx.
  destruct (reach_closed w Hw) as [Hroots Hexp].
  rewrite Hq, app_nil_r in Hroots, Hexp.
  induction Hx as [e He Hp|e He _ IH].
  - apply Hroots, (built_roots Hbuilt). eauto.
  - apply (Hexp _ _ IH).
    rewrite expand_built, Hfail.
    + apply elem_of_children_of. eauto.
    + apply (reach_logged w Hw). by rewrite Hq, app_nil_r.
Qed.

(** With unique ids, a child of a popped node on which [function]
    succeeded is neither popped nor queued. *)
Lemma reach_pruned (w : Walk) (v c : Id) (cs : list Id) :
  NoDup (id_extractor <$> input) →
  walk_reach F function w →
  v ∈ visited w → recognized F function v = true →
  nodes F !! v = Some cs → c ∈ cs →
  c ∉ visited w ++ queue w.
Proof.
  intros Hnd Hw Hv Hrec Hcs Hc Hin.
  assert (Hvl : v ∈ id_extractor <$> input).
  { apply (reach_logged w Hw), elem_of_app. by left. }
  rewrite (built_nodes Hbuilt), decide_True in Hcs by done.
  injection Hcs as <-.
  apply elem_of_children_of in Hc as (e & He & Hce & Hpe).
  destruct (reach_NoDup w Hnd Hw) as [_ Horigin].
  destruct (Horigin c Hin) as [Hr|(p & Hp & Hcp)].
  - apply (built_roots Hbuilt) in Hr as (e' & He' & Hce' & Hpe').
    assert (e' = e) as -> by (eapply unique_entry; eauto; congruence).
    apply Hpe'. by rewrite Hpe.
  - apply elem_of_expand in Hcp as (Hfail & Hcp & _).
    apply elem_of_children_of in Hcp as (e' & He' & Hce' & Hpe').
    assert (e' = e) as -> by (eapply unique_entry; eauto; congruence).
    congruence.
Qed.

End BfsFacts.

(** ** The constructor and the traversal: main statements *)

(** C1 (as amended). A visit on which [function] succeeds appends the
    produced outputs to the result, in their order, and puts nothing on the
    queue. When the ids of the log are unique, no child of such a node is
    ever queued or popped, at any state of the loop, and the loop returns
    within [length input] iterations in such a state. *)
Theorem success_prunes_subtree (input : list Entry)
    (function : Entry → Result (list Output)) :
  ∃ F, Forest_new input = Some F ∧
    (∀ w id rest entry outputs,
        walk_reach F function w → queue w = id :: rest →
        entries F !! id = Some entry → function entry = Ok outputs →
        bfs_visit F function id rest w =
          Some (mkWalk rest (result w ++ outputs) (visited w ++ [id]))) ∧
    (NoDup (id_extractor <$> input) →
       (∀ w v cs c,
           walk_reach F function w →
           v ∈ visited w → recognized F function v = true →
           nodes F !! v = Some cs → c ∈ cs →
           c ∉ visited w ++ queue w) ∧
       (∃ w, bfs_walk F function (length input) = Returned w ∧
             walk_reach F function w ∧ queue w = [])).
Proof.
  destruct (Forest_new_built input) as (F & HF & Hb).
  exists F. split; [done|]. split.
  - intros w id rest entry outputs _ _ He Hf.
    unfold bfs_visit. by rewrite He; simpl; rewrite Hf.
  - intros Hnd. split.
    + intros w v cs c Hw. by apply (reach_pruned input F function Hb).
    + destruct (bfs_loop_returns input F function Hb (length input)
                  (bfs_start F) Hnd (reach_start F function)) as [w Hw].
      { simpl. lia. }
      exists w. split; [done|].
      apply (bfs_loop_reach F function (length input) (bfs_start F));
        [apply reach_start | done].
Qed.

(** C4 (as amended). A visit on which [function] fails leaves the result
    as it is and appends the children of the node to the queue, in the
    order of their records in the log. No state of the loop throws, so the
    failure reaches no caller. When the ids of the log are unique, the loop
    returns a result within [length input] iterations. *)
Theorem failure_descends (input : list Entry)
    (function : Entry → Result (list Output)) :
  ∃ F, Forest_new input = Some F ∧
    (∀ w id rest entry what,
        walk_reach F function w → queue w = id :: rest →
        entries F !! id = Some entry → function entry = Err what →
        bfs_visit F function id rest w =
          Some (mkWalk (rest ++ children_of input id) (result w)
                       (visited w ++ [id]))) ∧
    (∀ fuel, bfs F function fuel ≠ Thrown) ∧
    (NoDup (id_extractor <$> input) →
       ∃ res, bfs F function (length input) = Returned res).
Proof.
  destruct (Forest_new_built input) as (F & HF & Hb).
  exists F. split; [done|]. split; [|split].
  - intros w id rest entry what Hw Hq He Hf.
    assert (Hid : id ∈ id_extractor <$> input).
    { apply (reach_logged input F function Hb w Hw).
      rewrite Hq, elem_of_app. right. left. }
    unfold bfs_visit. rewrite He. simpl. rewrite Hf.
    by rewrite (built_nodes Hb), decide_True.
  - intros fuel. unfold bfs, bfs_walk.
    pose proof (bfs_loop_no_throw input F function Hb fuel (bfs_start F)
                  (reach_start F function)) as Hno.
    by destruct (bfs_loop F function fuel (bfs_start F)).
  - intros Hnd.
    destruct (bfs_loop_returns input F function Hb (length input)
                (bfs_start F) Hnd (reach_start F function)) as [w Hw].
    { simpl. lia. }
    exists (result w). unfold bfs, bfs_walk. by rewrite Hw.
Qed.

(** C5 (as amended). For every log and every id, the entry map of the
    forest holds the first record of the log with that id: [emplace] leaves
    an existing key alone. *)
Theorem first_entry_wins (input : list Entry) :
  ∃ F, Forest_new input = Some F ∧
    ∀ k, entries F !! k = first_with_id input k.
Proof.
  destruct (Forest_new_built input) as (F & HF & Hb).
  exists F. split; [done|]. apply (built_entries Hb).
Qed.

(** C6. A candidate root without an entry (a phantom) is dropped from the
    children map and is no root; every child it listed becomes a root. *)
Theorem phantom_root_promotion (input : list Entry) (r : Id) :
  r ∈ maybe_roots (scan input) →
  s_entries (scan input) !! r = None →
  ∃ F, Forest_new input = Some F ∧
    nodes F !! r = None ∧
    (r ∉ roots F) ∧
    ∃ cs, s_nodes (scan input) !! r = Some cs ∧
          ∀ c, c ∈ cs → c ∈ roots F.
Proof.
  intros [Hp Hnid]%scan_maybe_roots _.
  destruct (Forest_new_built input) as (F & HF & Hb).
  exists F. split; [done|]. split; [|split].
  - by rewrite (built_nodes Hb), decide_False.
  - intros (e & He & <- & _)%(built_roots Hb).
    apply Hnid, list_elem_of_fmap. eauto.
  - exists (children_of input r). split.
    + rewrite scan_nodes, decide_True; [done | by right].
    + intros c (e & He & <- & <-)%elem_of_children_of.
      apply (built_roots Hb). eauto.
Qed.

(** C7 (as amended). For every log with unique ids, walking the forest
    with a function that fails on every node returns within [length input]
    iterations, pops no id twice, and pops exactly the ids whose chain of
    parents leaves the log. When every id of the log has such a chain, the
    ids popped are those of the log, each once. *)
Theorem flatten_unique_ids (input : list Entry)
    (function : Entry → Result (list Output)) :
  NoDup (id_extractor <$> input) →
  (∀ entry, is_ok (function entry) = false) →
  ∃ F w, Forest_new input = Some F ∧
    bfs_walk F function (length input) = Returned w ∧
    NoDup (visited w) ∧
    (∀ x, x ∈ visited w ↔ rooted input x) ∧
    ((∀ x, x ∈ id_extractor <$> input → rooted input x) →
     visited w ≡ₚ id_extractor <$> input).
Proof.
  intros Hnd Hfail.
  destruct (Forest_new_built input) as (F & HF & Hb).
  destruct (bfs_loop_returns input F function Hb (length input)
              (bfs_start F) Hnd (reach_start F function)) as [w Hw].
  { simpl. lia. }
  destruct (bfs_loop_reach F function (length input) (bfs_start F) w
              (reach_start F function) Hw) as [Hreach Hq].
  exists F, w. split; [done|]. split; [done|].
  assert (Hvnd : NoDup (visited w)).
  { destruct (reach_NoDup input F function Hb w Hnd Hreach) as [H _].
    by rewrite Hq, app_nil_r in H. }
  assert (Hiff : ∀ x, x ∈ visited w ↔ rooted input x).
  { intros x. split.
    - intros Hx. apply (reach_rooted input F function Hb w Hreach).
      apply elem_of_app. by left.
    - apply (reach_all_rooted input F function Hb w Hreach Hq).
      intros id. unfold recognized.
      destruct (entries F !! id); [apply Hfail | done]. }
  split; [done|]. split; [done|].
  intros Hall. apply NoDup_Permutation; [done..|].
  intros x. rewrite Hiff. split; [|apply Hall].
  intros Hx. apply (reach_logged input F function Hb w Hreach).
  apply elem_of_app. left. by apply Hiff.
Qed.

(** C8. For every log with unique ids and every recognition function,
    the loop returns within [length input] iterations with an empty queue;
    at every state on the way no id occurs twice among the ids popped and
    queued, so each id is popped at most once. A record that is its own
    parent is a log like any other here. *)
Theorem bfs_terminates_unique_ids (input : list Entry)
    (function : Entry → Result (list Output)) :
  NoDup (id_extractor <$> input) →
  ∃ F w, Forest_new input = Some F ∧
    bfs_walk F function (length input) = Returned w ∧
    queue w = [] ∧
    NoDup (visited w) ∧
    ∀ w', walk_reach F function w' → NoDup (visited w' ++ queue w').
Proof.
  intros Hnd.
  destruct (Forest_new_built input) as (F & HF & Hb).
  destruct (bfs_loop_returns input F function Hb (length input)
              (bfs_start F) Hnd (reach_start F function)) as [w Hw].
  { simpl. lia. }
  destruct (bfs_loop_reach F function (length input) (bfs_start F) w
              (reach_start F function) Hw) as [Hreach Hq].
  exists F, w. split; [done|]. split; [done|]. split; [done|]. split.
  - destruct (reach_NoDup input F function Hb w Hnd Hreach) as [H _].
    by rewrite Hq, app_nil_r in H.
  - intros w' Hw'. by apply (reach_NoDup input F function Hb w' Hnd Hw').
Qed.

(** C9. The roots are sorted ascending (and hold no id twice), and the
    forest does not depend on the order in which the two unordered sets
    are walked. The ids come off the queue level by level: the sorted
    roots first, then, for each node of a level on which [function] failed
    and in the order of that level, its children in the order of their
    records in the log. The result is the outputs of the popped ids in the
    order they were popped. *)
Theorem breadth_first_order (input : list Entry)
    (function : Entry → Result (list Output)) :
  ∃ F, Forest_new input = Some F ∧
    Sorted Z.le (roots F) ∧ NoDup (roots F) ∧
    (∀ order1 order2 : gset Id → list Id,
        (∀ X, order1 X ≡ₚ elements X) → (∀ X, order2 X ≡ₚ elements X) →
        Forest_new_with order1 order2 input = Some F) ∧
    (∀ id, id ∈ id_extractor <$> input →
        expand F function id =
          if recognized F function id then [] else children_of input id) ∧
    (∀ w, walk_reach F function w →
        result w = flat_map (outputs_at F function) (visited w) ∧
        ∃ k done todo,
          level F function k = done ++ todo ∧
          visited w = levels_upto F function k ++ done ∧
          queue w = todo ++ flat_map (expand F function) done) ∧
    (∀ fuel w, bfs_walk F function fuel = Returned w →
        result w = flat_map (outputs_at F function) (visited w) ∧
        ∃ k, level F function k = [] ∧
             visited w = levels_upto F function k).
Proof.
  destruct (Forest_new_built input) as (F & HF & Hb).
  exists F. split; [done|].
  split; [apply (built_roots_sorted Hb)|].
  split; [apply (built_roots_NoDup Hb)|].
  split; [|split; [|split]].
  - intros order1 order2 H1 H2.
    destruct (Forest_new_with_built order1 order2 input H1 H2)
      as (F' & -> & Hb').
    f_equal. by apply (built_from_unique input).
  - intros id. by apply expand_built.
  - intros w. by apply (reach_levels input).
  - intros fuel w Hw.
    destruct (bfs_loop_reach F function fuel (bfs_start F) w
                (reach_start F function) Hw) as [Hreach Hq].
    destruct (reach_levels input F function Hb w Hreach)
      as [Hres (k & done & todo & Hl & Hv & Hq')].
    split; [done|].
    rewrite Hq in Hq'. symmetry in Hq'.
    apply app_eq_nil in Hq' as [-> Hnext]. rewrite app_nil_r in Hl.
    exists (S k). simpl. by rewrite Hl.
Qed.

(** ** More on the constructor and the traversal *)

Local Abbreviation exposed := (exposed id_extractor parent_id_extractor).
Local Abbreviation descends := (descends id_extractor parent_id_extractor).

Lemma first_with_id_unique (input : list Entry) (e : Entry) :
  NoDup (id_extractor <$> input) → e ∈ input →
  first_with_id input (id_extractor e) = Some e.
Proof.
  intros Hnd He.
  destruct (first_with_id input (id_extractor e)) as [e'|] eqn:Hf.
  - apply first_with_id_Some in Hf as [He' Hid]. f_equal.
    by apply (unique_entry input).
  - apply first_with_id_None in Hf. exfalso. apply Hf.
    apply list_elem_of_fmap. eauto.
Qed.

Lemma reach_exposed (input : list Entry) (F : Forest Entry)
    (function : Entry → Result (list Output)) (w : Walk) :
  built_from input F → walk_reach F function w →
  ∀ x, x ∈ visited w ++ queue w → exposed input F function x.
Proof.
  intros Hb. revert w. apply (walk_reach_built_ind input F function Hb (λ w,
    ∀ x, x ∈ visited w ++ queue w → exposed input F function x)).
  - simpl. intros x (e & ? & <- & ?)%(built_roots Hb). by apply exposed_root.
  - intros w id rest _ IH Hq Hid. simpl. rewrite Hq in IH. intros x.
    rewrite !elem_of_app, list_elem_of_singleton.
    intros [[Hx| ->]|[Hx|Hx]].
    + apply IH, elem_of_app. by left.
    + apply IH, elem_of_app. right. left.
    + apply IH, elem_of_app. right. by right.
    + apply (elem_of_expand input F function Hb) in Hx as (Hfail & Hx & _).
      apply elem_of_children_of in Hx as (e & ? & <- & <-).
      apply exposed_child; [done| |done]. apply IH, elem_of_app. right. left.
Qed.

Lemma exposed_visited (input : list Entry) (F : Forest Entry)
    (function : Entry → Result (list Output)) (w : Walk) :
  built_from input F → walk_reach F function w → queue w = [] →
  ∀ x, exposed input F function x → x ∈ visited w.
Proof.
  intros Hb Hw Hq x Hx.
  destruct (reach_closed input F function Hb w Hw) as [Hroots Hexp].
  rewrite Hq, app_nil_r in Hroots, Hexp.
  induction Hx as [e He Hp|e He _ IH Hfail].
  - apply Hroots, (built_roots Hb). eauto.
  - apply (Hexp _ _ IH).
    rewrite (expand_built input F function Hb), Hfail.
    + apply elem_of_children_of. eauto.
    + apply (reach_logged input F function Hb w Hw). by rewrite Hq, app_nil_r.
Qed.

Lemma descends_logged (input : list Entry) (v x : Id) :
  descends input v x → x ∈ id_extractor <$> input.
Proof. intros [e He|e v' He _]; apply list_elem_of_fmap; eauto. Qed.

(** X1. The first loop of the constructor leaves in [nodes] a key for
    every id that occurs as an id or as a parent, and no other; the list
    under a key is the ids of the records that name it as their parent, one
    per record and in log order. [non_roots] ends as the set of the ids of
    the records. *)
Theorem first_loop_maps (input : list Entry) :
  (∀ k, s_nodes (scan input) !! k =
          if decide (k ∈ id_extractor <$> input ∨
                     k ∈ parent_id_extractor <$> input)
          then Some (children_of input k) else None) ∧
  non_roots (scan input) = list_to_set (id_extractor <$> input).
Proof. split; [apply scan_nodes | apply scan_non_roots]. Qed.

(** X2. After the first loop every candidate root is a phantom: it has no
    entry, it is not in [non_roots], and it has a children list that is not
    empty. So [nodes.at(root)] of the second loop finds its key, and the
    branch that keeps a candidate as a root is never taken. *)
Theorem candidate_roots_are_phantoms (input : list Entry) (r : Id) :
  r ∈ maybe_roots (scan input) →
  s_entries (scan input) !! r = None ∧
  (r ∉ non_roots (scan input)) ∧
  ∃ cs, s_nodes (scan input) !! r = Some cs ∧ cs ≠ [].
Proof.
  intros [Hp Hnid]%scan_maybe_roots. split; [|split].
  - rewrite scan_entries. by apply first_with_id_None.
  - by rewrite scan_non_roots, elem_of_list_to_set.
  - exists (children_of input r). split.
    + rewrite scan_nodes, decide_True; [done | by right].
    + intros Hnil. by apply children_of_nil_iff in Hnil.
Qed.

(** X3. In the forest of any log the entry map and the children map have
    the same keys, the ids of the records; every root and every id in a
    children list is one of these keys. *)
Theorem forest_keys_closed (input : list Entry) :
  ∃ F, Forest_new input = Some F ∧
    dom (entries F) =@{gset Id} list_to_set (id_extractor <$> input) ∧
    dom (nodes F) =@{gset Id} dom (entries F) ∧
    (∀ x, x ∈ roots F → x ∈ dom (entries F)) ∧
    (∀ k cs c, nodes F !! k = Some cs → c ∈ cs → c ∈ dom (entries F)).
Proof.
  destruct (Forest_new_built input) as (F & HF & Hb).
  assert (He : ∀ x, x ∈ dom (entries F) ↔ x ∈ id_extractor <$> input).
  { intros x. by rewrite elem_of_dom, (built_entries Hb),
      first_with_id_is_Some. }
  exists F. split; [done|]. split; [|split; [|split]].
  - apply set_eq. intros x. by rewrite He, elem_of_list_to_set.
  - apply set_eq. intros x. rewrite He, elem_of_dom, (built_nodes Hb).
    case_decide; [|by rewrite <- not_eq_None_Some]. split; [done|eauto].
  - intros x Hx. apply He. by apply (roots_logged input F Hb).
  - intros k cs c Hk Hc. apply He.
    rewrite (built_nodes Hb) in Hk. case_decide; [|done].
    injection Hk as <-. by apply (children_logged input k).
Qed.

(** X4. The roots are the ids of the records whose parent was not logged.
    When the parent of every record is logged too (a record that is its own
    parent, a cycle of pids), there is no root, and [bfs] returns the empty
    list at once, whatever the function would recognize. *)
Theorem roots_are_orphans (input : list Entry)
    (function : Entry → Result (list Output)) :
  ∃ F, Forest_new input = Some F ∧
    (∀ x, x ∈ roots F ↔
          ∃ e, e ∈ input ∧ id_extractor e = x ∧
               parent_id_extractor e ∉ id_extractor <$> input) ∧
    (roots F = [] ↔
       ∀ e, e ∈ input → parent_id_extractor e ∈ id_extractor <$> input) ∧
    ((∀ e, e ∈ input → parent_id_extractor e ∈ id_extractor <$> input) →
     ∀ fuel, bfs F function fuel = Returned []).
Proof.
  destruct (Forest_new_built input) as (F & HF & Hb).
  assert (Hempty : roots F = [] ↔
    ∀ e, e ∈ input → parent_id_extractor e ∈ id_extractor <$> input).
  { split.
    - intros Hr e He.
      destruct (decide (parent_id_extractor e ∈ id_extractor <$> input))
        as [|Hn]; [done|].
      assert (Hin : id_extractor e ∈ roots F)
        by (apply (built_roots Hb); eauto).
      rewrite Hr in Hin. by apply elem_of_nil in Hin.
    - intros Hall. destruct (roots F) as [|x l] eqn:Hr; [done|].
      assert (Hin : x ∈ roots F) by (rewrite Hr; left).
      apply (built_roots Hb) in Hin as (e & He & _ & Hn).
      by apply Hall in He. }
  exists F. split; [done|]. split; [apply (built_roots Hb)|].
  split; [done|].
  intros Hall%Hempty fuel. unfold bfs, bfs_walk, bfs_start. rewrite Hall.
  by destruct fuel.
Qed.

(** X5. The order of the records decides little: two logs that are
    permutations of each other have forests with the same roots and the
    same keys, and under each key children lists that are permutations of
    each other; when the ids are unique the entry maps are equal too. *)
Theorem forest_of_permuted_log (input input' : list Entry) :
  input ≡ₚ input' →
  ∃ F F', Forest_new input = Some F ∧ Forest_new input' = Some F' ∧
    roots F = roots F' ∧
    dom (nodes F) =@{gset Id} dom (nodes F') ∧
    (∀ k cs cs', nodes F !! k = Some cs → nodes F' !! k = Some cs' →
                 cs ≡ₚ cs') ∧
    (NoDup (id_extractor <$> input) → entries F = entries F').
Proof.
  intros Hperm.
  destruct (Forest_new_built input) as (F & HF & Hb).
  destruct (Forest_new_built input') as (F' & HF' & Hb').
  assert (Hids : id_extractor <$> input ≡ₚ id_extractor <$> input')
    by by rewrite Hperm.
  exists F, F'. split; [done|]. split; [done|]. split; [|split; [|split]].
  - apply (Sorted_unique Z.le);
      [apply (built_roots_sorted Hb) | apply (built_roots_sorted Hb') |].
    apply NoDup_Permutation;
      [apply (built_roots_NoDup Hb) | apply (built_roots_NoDup Hb') |].
    intros x. rewrite (built_roots Hb), (built_roots Hb').
    split; intros (e & He & Hx & Hp); exists e.
    + by rewrite <- Hperm.
    + by rewrite Hperm.
  - apply set_eq. intros k.
    rewrite !elem_of_dom, (built_nodes Hb), (built_nodes Hb').
    destruct (decide (k ∈ id_extractor <$> input)) as [Hk|Hk].
    + rewrite decide_True by by rewrite <- Hids. split; eauto.
    + rewrite decide_False by by rewrite <- Hids. done.
  - intros k cs cs'. rewrite (built_nodes Hb), (built_nodes Hb').
    repeat case_decide; try done. intros [= <-] [= <-].
    unfold children_of. by rewrite Hperm.
  - intros Hnd. apply map_eq. intros k.
    rewrite (built_entries Hb), (built_entries Hb').
    destruct (first_with_id input k) as [e|] eqn:Hf.
    + apply first_with_id_Some in Hf as [He <-]. symmetry.
      apply first_with_id_unique; [by rewrite <- Hids | by rewrite <- Hperm].
    + symmetry. apply first_with_id_None. rewrite <- Hids.
      by apply first_with_id_None.
Qed.

(** X6. The ids that a returned traversal has popped are the exposed ones:
    those with a record whose parent was not logged, and those with a record
    whose parent is exposed and was not recognized. No other id is handed to
    the function, for any log and any function. *)
Theorem visited_iff_exposed (input : list Entry)
    (function : Entry → Result (list Output)) :
  ∃ F, Forest_new input = Some F ∧
    ∀ fuel w, bfs_walk F function fuel = Returned w →
      ∀ x, x ∈ visited w ↔ exposed input F function x.
Proof.
  destruct (Forest_new_built input) as (F & HF & Hb).
  exists F. split; [done|]. intros fuel w Hw.
  destruct (bfs_loop_reach F function fuel (bfs_start F) w
              (reach_start F function) Hw) as [Hreach Hq].
  intros x. split.
  - intros Hx. apply (reach_exposed input F function w Hb Hreach).
    apply elem_of_app. by left.
  - by apply (exposed_visited input F function w Hb Hreach Hq).
Qed.

(** X7. With unique ids, recognition hides the whole subtree: once a
    popped node is recognized, no id below it, at any depth, is ever popped
    or queued. The loop returns within [length input] iterations in such a
    state. *)
Theorem recognized_node_hides_descendants (input : list Entry)
    (function : Entry → Result (list Output)) :
  NoDup (id_extractor <$> input) →
  ∃ F, Forest_new input = Some F ∧
    (∀ w v x,
        walk_reach F function w →
        v ∈ visited w → recognized F function v = true →
        descends input v x →
        x ∉ visited w ++ queue w) ∧
    (∃ w, bfs_walk F function (length input) = Returned w ∧
          walk_reach F function w).
Proof.
  intros Hnd.
  destruct (Forest_new_built input) as (F & HF & Hb).
  exists F. split; [done|]. split.
  - intros w v x Hw Hv Hrec Hdesc Hx.
    assert (Hvl : v ∈ id_extractor <$> input).
    { apply (reach_logged input F function Hb w Hw), elem_of_app. by left. }
    apply (reach_exposed input F function w Hb Hw) in Hx.
    clear Hw Hv w. induction Hdesc as [e He|e v He Hdesc IH].
    + remember (id_extractor e) as x eqn:Hxe.
      destruct Hx as [e' He' Hp|e' He' _ Hfail];
        assert (e' = e) as -> by (by apply (unique_entry input)).
      * done.
      * congruence.
    + remember (id_extractor e) as x eqn:Hxe.
      destruct Hx as [e' He' Hp|e' He' Hpar _];
        assert (e' = e) as -> by (by apply (unique_entry input)).
      * apply Hp. by eapply descends_logged.
      * by apply IH.
  - destruct (bfs_loop_returns input F function Hb (length input)
                (bfs_start F) Hnd (reach_start F function)) as [w Hw].
    { simpl. lia. }
    exists w. split; [done|].
    apply (bfs_loop_reach F function (length input) (bfs_start F));
      [apply reach_start | done].
Qed.

Lemma bfs_loop_all_recognized (input : list Entry) (F : Forest Entry)
    (function : Entry → Result (list Output))
    (q : list Id) (res : list Output) (vis : list Id) :
  built_from input F →
  (∀ x, x ∈ q → x ∈ id_extractor <$> input ∧
                recognized F function x = true) →
  bfs_loop F function (length q) (mkWalk q res vis) =
    Returned (mkWalk [] (res ++ flat_map (outputs_at F function) q)
                     (vis ++ q)).
Proof.
  intros Hb. revert res vis. induction q as [|x q IH]; intros res vis Hq.
  - simpl. by rewrite !app_nil_r.
  - destruct (Hq x) as [Hx Hrec]; [left|].
    simpl. rewrite (bfs_visit_built input F function Hb) by done.
    unfold expand. rewrite Hrec, app_nil_r. simpl.
    rewrite IH by (intros y Hy; apply Hq; by right).
    by rewrite <- !app_assoc.
Qed.

(** X14. When the function recognizes every root, the traversal makes
    one iteration per root and returns the outputs of the roots in the
    order of the root list, which is ascending by id and not the order of
    the log; no other node is looked at. This holds for every log,
    duplicate ids included. *)
Theorem recognized_roots_in_id_order (input : list Entry)
    (function : Entry → Result (list Output)) :
  ∃ F, Forest_new input = Some F ∧
    Sorted Z.le (roots F) ∧
    ((∀ x, x ∈ roots F → recognized F function x = true) →
     bfs_walk F function (length (roots F)) =
       Returned (mkWalk [] (flat_map (outputs_at F function) (roots F))
                        (roots F))).
Proof.
  destruct (Forest_new_built input) as (F & HF & Hb).
  exists F. split; [done|]. split; [apply (built_roots_sorted Hb)|].
  intros Hall. unfold bfs_walk, bfs_start.
  rewrite (bfs_loop_all_recognized input F function (roots F) [] [] Hb);
    [done|].
  intros x Hx. split; [by apply (roots_logged input F Hb) | by apply Hall].
Qed.

End ForestFacts.

(** ** The matcher agrees with the language *)

Lemma matches_nil_nullable (r : regex) (s : list ascii) :
  matches r s → s = [] → nullable r = true.
Proof.
  induction 1 as [| | |r1 r2 s1 s2 _ IH1 _ IH2| | | |r s1 s2 _ _ _ _|];
    intros Hs; simpl; try done; auto.
  - apply app_eq_nil in Hs as [-> ->]. by rewrite IH1, IH2.
  - by rewrite IHmatches.
  - rewrite IHmatches by done. by destruct (nullable r1).
Qed.

Lemma nullable_matches (r : regex) : nullable r = true ↔ matches r [].
Proof.
  split; [|by intros H; eapply matches_nil_nullable].
  induction r; simpl; try done.
  - intros _. constructor.
  - intros [H1 H2]%andb_prop.
    change (@nil ascii) with (@nil ascii ++ []). constructor; auto.
  - intros [H|H]%orb_prop; [apply matches_alt_l | apply matches_alt_r]; auto.
  - intros _. constructor.
  - intros H. constructor. auto.
Qed.

Lemma deriv_sound (c : ascii) (r : regex) (s : list ascii) :
  matches (deriv c r) s → matches r (c :: s).
Proof.
  revert s. induction r as [| |c'| |r1 IH1 r2 IH2|r1 IH1 r2 IH2|r IH|r IH];
    intros s; simpl.
  - inversion 1.
  - inversion 1.
  - destruct (Ascii.eqb_spec c c') as [->|]; inversion 1. constructor.
  - destruct (line_terminator c) eqn:Hc; inversion 1. by constructor.
  - assert (Hcat : matches (Cat (deriv c r1) r2) s → matches (Cat r1 r2) (c :: s)).
    { inversion 1 as [| | |? ? s1 s2 H1 H2| | | | |]; subst.
      change (c :: s1 ++ s2) with ((c :: s1) ++ s2). constructor; auto. }
    destruct (nullable r1) eqn:Hn; [|done].
    inversion 1; subst; [by apply Hcat|].
    change (c :: s) with ([] ++ c :: s).
    constructor; [by apply nullable_matches | auto].
  - inversion 1; subst; [apply matches_alt_l | apply matches_alt_r]; auto.
  - inversion 1 as [| | |? ? s1 s2 H1 H2| | | | |]; subst.
    change (c :: s1 ++ s2) with ((c :: s1) ++ s2). constructor; auto.
  - intros H. constructor. auto.
Qed.

Lemma deriv_complete (c : ascii) (r : regex) (s t : list ascii) :
  matches r t → t = c :: s → matches (deriv c r) s.
Proof.
  intros H. revert s.
  induction H as [|c'|c'| r1 r2 s1 s2 H1 IH1 H2 IH2 |r1 r2 t H IH|r1 r2 t H IH
                  | |r s1 s2 H1 IH1 H2 IH2|r t H IH]; intros s Ht; simpl.
  - done.
  - injection Ht as -> <-. rewrite Ascii.eqb_refl. constructor.
  - injection Ht as -> <-. rewrite H. constructor.
  - destruct s1 as [|c1 s1]; simpl in Ht.
    + rewrite (matches_nil_nullable r1 [] H1 eq_refl).
      apply matches_alt_r. by apply IH2.
    + injection Ht as -> <-.
      assert (matches (Cat (deriv c r1) r2) (s1 ++ s2))
        by (constructor; auto).
      destruct (nullable r1); [by apply matches_alt_l | done].
  - apply matches_alt_l. by apply IH.
  - apply matches_alt_r. by apply IH.
  - done.
  - destruct s1 as [|c1 s1]; simpl in Ht.
    + by apply IH2.
    + injection Ht as -> <-. constructor; auto.
  - simpl. by apply IH.
Qed.

Lemma regex_match_matches (r : regex) (s : list ascii) :
  regex_match r s = true ↔ matches r s.
Proof.
  revert r. induction s as [|c s IH]; intros r; simpl.
  - apply nullable_matches.
  - rewrite IH. split; [apply deriv_sound|].
    intros H. by eapply deriv_complete.
Qed.

Lemma matches_star_dot (s : list ascii) :
  matches (Star Dot) s ↔ no_line_terminator s.
Proof.
  unfold no_line_terminator. split.
  - intros H. remember (Star Dot) as r eqn:Hr.
    induction H as [| | | | | | |r s1 s2 H1 _ H2 IH2|]; try done.
    injection Hr as ->. inversion H1; subst. simpl.
    constructor; [done | by apply IH2].
  - induction 1 as [|c s Hc _ IH]; [constructor|].
    change (c :: s) with ([c] ++ s). constructor; [by constructor | done].
Qed.

Lemma matches_pattern (s : list ascii) :
  matches pattern s ↔
    ∃ a b, s = a ++ ["l"; "d"]%char ++ b ∧
           no_line_terminator a ∧ no_line_terminator b.
Proof.
  unfold pattern. split.
  - inversion 1 as [| | |? ? a s2 Ha H2| | | | |]; subst.
    inversion H2 as [| | |? ? sl s3 Hl H3| | | | |]; subst.
    inversion H3 as [| | |? ? sd b Hd Hb| | | | |]; subst.
    inversion Ha; subst. inversion Hl; subst. inversion Hd; subst.
    inversion Hb; subst.
    exists a, b. split; [done|]. by rewrite <- !matches_star_dot.
  - intros (a & b & -> & Ha & Hb).
    constructor; [constructor; by apply matches_star_dot|].
    change (["l"; "d"]%char ++ b) with (["l"%char] ++ ["d"%char] ++ b).
    constructor; [constructor|].
    constructor; [constructor|].
    constructor. by apply matches_star_dot.
Qed.

(** ** Tools::select *)

Section SelectFacts.
Context {Semantic : Type}.
Variable path_equal : path → path → bool.

Lemma first_recognizing_found (tools : list (Tool Semantic)) (prog : path)
    (asked : list (Tool Semantic)) (tool : Tool Semantic) :
  first_recognizing tools prog = (asked, Some tool) →
  ∃ k, tools !! k = Some tool ∧ recognize tool prog = true ∧
       asked = take (S k) tools ∧
       ∀ j t, (j < k)%nat → tools !! j = Some t → recognize t prog = false.
Proof.
  revert asked. induction tools as [|t0 tools IH]; intros asked; simpl.
  - done.
  - destruct (recognize t0 prog) eqn:Ht0.
    + intros [= <- <-]. exists O. split; [done|]. split; [done|].
      split; [done|]. intros j t Hj. lia.
    + destruct (first_recognizing tools prog) as [asked' found] eqn:Hrest.
      intros [= <- ->].
      destruct (IH asked' eq_refl) as (k & Hk & Hrec & Hasked & Hbefore).
      exists (S k). split; [done|]. split; [done|].
      split; [by rewrite Hasked|].
      intros [|j] t Hj Ht; simpl in Ht.
      * by injection Ht as <-.
      * apply (Hbefore j); [lia | done].
Qed.

Lemma first_recognizing_none (tools : list (Tool Semantic)) (prog : path)
    (asked : list (Tool Semantic)) :
  first_recognizing tools prog = (asked, None) →
  asked = tools ∧ ∀ t, t ∈ tools → recognize t prog = false.
Proof.
  revert asked. induction tools as [|t0 tools IH]; intros asked; simpl.
  - intros [= <-]. split; [done|]. by intros t ?%elem_of_nil.
  - destruct (recognize t0 prog) eqn:Ht0; [done|].
    destruct (first_recognizing tools prog) as [asked' found] eqn:Hrest.
    intros [= <- ->]. destruct (IH asked' eq_refl) as [-> Hall].
    split; [done|]. intros t [->|Ht]%elem_of_cons; auto.
Qed.

(** C2. A command whose program is on the exclude list gets the Excluded
    error, and [recognize] has been called on no tool, whatever the tools
    would have answered. *)
Theorem select_excluded (T : Tools Semantic) (c : Command) :
  on_exclude_list path_equal T c = true →
  select_traced path_equal T c = ([], Err Excluded) ∧
  select path_equal T c = Err Excluded.
Proof.
  intros Hex. unfold select, select_traced. by rewrite Hex.
Qed.

(** C3. For a command that is not on the exclude list, [select] returns a
    tool exactly when it is the first of the list whose [recognize] holds
    of the program, having called [recognize] on the tools up to that one
    and on no other; it fails, with the Unrecognized error, exactly when
    [recognize] holds for no tool of the list. *)
Theorem select_first_match (T : Tools Semantic) (c : Command) :
  on_exclude_list path_equal T c = false →
  (∀ tool, select path_equal T c = Ok tool →
     ∃ k, tools_ T !! k = Some tool ∧
          recognize tool (program c) = true ∧
          fst (select_traced path_equal T c) = take (S k) (tools_ T) ∧
          ∀ j t, (j < k)%nat → tools_ T !! j = Some t →
                 recognize t (program c) = false) ∧
  (∀ k tool,
     tools_ T !! k = Some tool → recognize tool (program c) = true →
     (∀ j t, (j < k)%nat → tools_ T !! j = Some t →
             recognize t (program c) = false) →
     select path_equal T c = Ok tool) ∧
  (select path_equal T c = Err Unrecognized ↔
     ∀ t, t ∈ tools_ T → recognize t (program c) = false) ∧
  (∀ what, select path_equal T c = Err what → what = Unrecognized).
Proof.
  intros Hex. unfold select, select_traced. rewrite Hex.
  destruct (first_recognizing (tools_ T) (program c)) as [asked [found|]]
    eqn:Hscan; simpl.
  - destruct (first_recognizing_found _ _ _ _ Hscan)
      as (k & Hk & Hrec & Hasked & Hbefore).
    split; [|split; [|split]].
    + intros tool [= <-]. exists k. done.
    + intros k' tool Hk' Hrec' Hbefore'. f_equal.
      destruct (Nat.lt_trichotomy k k') as [Hlt|[->|Hlt]].
      * rewrite (Hbefore' k found Hlt Hk) in Hrec. done.
      * congruence.
      * rewrite (Hbefore k' tool Hlt Hk') in Hrec'. done.
    + split; [done|]. intros Hall.
      rewrite (Hall found) in Hrec; [done|].
      by eapply list_elem_of_lookup_2.
    + done.
  - destruct (first_recognizing_none _ _ _ Hscan) as [-> Hall].
    split; [done|]. split; [|split].
    + intros k tool Hk Hrec.
      rewrite (Hall tool) in Hrec; [done|]. by eapply list_elem_of_lookup_2.
    + done.
    + by intros what [= <-].
Qed.

End SelectFacts.

(** ** ToolLD::recognize *)

(** C10 (as amended). [ToolLD::recognize] holds of a program exactly when
    its filename, as the C string given to [regex_match], has ["ld"]
    somewhere in it and has no line terminator (LF, CR) in it: [.] matches
    every character but those. *)
Theorem ToolLD_recognize_iff (prog : path) :
  ToolLD_recognize prog = true ↔
    contains_ld (c_str (filename prog)) ∧
    no_line_terminator (c_str (filename prog)).
Proof.
  unfold ToolLD_recognize, ToolLD_recognize_traced. simpl.
  rewrite regex_match_matches, matches_pattern.
  unfold contains_ld, no_line_terminator. split.
  - intros (a & b & -> & Ha & Hb). split; [eauto|].
    apply Forall_app. split; [done|].
    repeat (constructor; [done|]). done.
  - intros [(a & b & Hs) Hno]. exists a, b. split; [done|].
    rewrite Hs in Hno. apply Forall_app in Hno as [Ha Hb].
    split; [done|]. by inversion Hb as [|? ? _ Hb']; inversion Hb'.
Qed.

(** ** More on the tools *)

Section ToolsFacts.
Context {Semantic CdbEntry : Type}.
Variable path_equal : path → path → bool.

Lemma first_recognizing_at (tools : list (Tool Semantic)) (prog : path)
    (k : nat) (tool : Tool Semantic) :
  tools !! k = Some tool → recognize tool prog = true →
  (∀ j t, (j < k)%nat → tools !! j = Some t → recognize t prog = false) →
  first_recognizing tools prog = (take (S k) tools, Some tool).
Proof.
  revert k. induction tools as [|t0 tools IH]; intros k Hk Hrec Hbefore.
  - done.
  - destruct k as [|k]; simpl in Hk.
    + injection Hk as ->. simpl. by rewrite Hrec, take_0.
    + simpl. rewrite (Hbefore O t0) by (done || lia).
      rewrite (IH k Hk Hrec); [done|].
      intros j t Hj Ht. apply (Hbefore (S j)); [lia | done].
Qed.

Lemma first_recognizing_app_found (l1 l2 : list (Tool Semantic)) (prog : path)
    (asked : list (Tool Semantic)) (tool : Tool Semantic) :
  first_recognizing l1 prog = (asked, Some tool) →
  first_recognizing (l1 ++ l2) prog = (asked, Some tool).
Proof.
  revert asked. induction l1 as [|t0 l1 IH]; intros asked; simpl; [done|].
  destruct (recognize t0 prog); [done|].
  destruct (first_recognizing l1 prog) as [asked1 found1].
  intros [= <- ->]. by rewrite (IH asked1 eq_refl).
Qed.

Lemma first_recognizing_app_none (l1 l2 : list (Tool Semantic)) (prog : path) :
  (∀ t, t ∈ l1 → recognize t prog = false) →
  first_recognizing (l1 ++ l2) prog =
    (l1 ++ fst (first_recognizing l2 prog), snd (first_recognizing l2 prog)).
Proof.
  induction l1 as [|t0 l1 IH]; intros Hall; simpl.
  - by destruct (first_recognizing l2 prog).
  - rewrite (Hall t0) by left. rewrite IH; [done|].
    intros t Ht. apply Hall. by right.
Qed.

Lemma first_recognizing_some (tools : list (Tool Semantic)) (prog : path)
    (t : Tool Semantic) :
  t ∈ tools → recognize t prog = true →
  ∃ asked tool, first_recognizing tools prog = (asked, Some tool).
Proof.
  intros Ht Hrec.
  destruct (first_recognizing tools prog) as [asked [tool|]] eqn:Hscan;
    [eauto|].
  apply first_recognizing_none in Hscan as [_ Hall].
  rewrite (Hall t Ht) in Hrec. done.
Qed.

(** X8. [Tools::recognize] composes [select] with the [compilations] of
    the tool selected. For a program on the exclude list it is the Excluded
    error; when no tool recognizes the program it is the Unrecognized error;
    otherwise it is what the first recognizing tool of the list makes of the
    same command, an error of that tool included, and no other tool's
    [compilations] has a say. *)
Theorem Tools_recognize_cases (T : Tools Semantic) (e : Execution) :
  (on_exclude_list path_equal T (command e) = true →
   Tools_recognize path_equal T e = Err Excluded) ∧
  (on_exclude_list path_equal T (command e) = false →
   (∀ t, t ∈ tools_ T → recognize t (program (command e)) = false) →
   Tools_recognize path_equal T e = Err Unrecognized) ∧
  (on_exclude_list path_equal T (command e) = false →
   ∀ k tool,
     tools_ T !! k = Some tool →
     recognize tool (program (command e)) = true →
     (∀ j t, (j < k)%nat → tools_ T !! j = Some t →
             recognize t (program (command e)) = false) →
     Tools_recognize path_equal T e = compilations tool (command e)).
Proof.
  unfold Tools_recognize, select, select_traced. split; [|split].
  - intros Hex. by rewrite Hex.
  - intros Hex Hall. rewrite Hex.
    destruct (first_recognizing (tools_ T) (program (command e)))
      as [asked [tool|]] eqn:Hscan; [|done].
    apply first_recognizing_found in Hscan as (k & Hk & Hrec & _).
    rewrite (Hall tool) in Hrec; [done|]. by eapply list_elem_of_lookup_2.
  - intros Hex k tool Hk Hrec Hbefore. rewrite Hex.
    by rewrite (first_recognizing_at _ _ k tool Hk Hrec Hbefore).
Qed.

(** X9. [Tools::transform] never throws: the constructor of the forest
    and the traversal find every key they look up. On an empty report it
    returns no entry. When the pids of the report are unique it returns
    within as many iterations of the loop as there are executions. *)
Theorem transform_never_throws (T : Tools Semantic)
    (into_entry : Semantic → option CdbEntry) (executions : list Execution) :
  (∀ fuel, transform path_equal T into_entry fuel executions ≠ Thrown) ∧
  (∀ fuel, transform path_equal T into_entry fuel [] = Returned []) ∧
  (NoDup (pid <$> executions) →
   ∃ out, transform path_equal T into_entry (length executions) executions
          = Returned out).
Proof.
  split; [|split].
  - intros fuel. unfold transform.
    destruct (Forest_new_built pid ppid executions) as (F & -> & Hb).
    unfold bfs, bfs_walk.
    pose proof (bfs_loop_no_throw pid ppid executions F
                  (Tools_recognize path_equal T) Hb fuel (bfs_start F)
                  (reach_start F _)) as Hno.
    by destruct (bfs_loop F (Tools_recognize path_equal T) fuel (bfs_start F)).
  - intros fuel. unfold transform.
    change (Forest_new pid ppid []) with (Some (mkForest (∅ : gmap Id Execution) ∅ [])).
    by destruct fuel.
  - intros Hnd. unfold transform.
    destruct (Forest_new_built pid ppid executions) as (F & -> & Hb).
    destruct (bfs_loop_returns pid ppid executions F
                (Tools_recognize path_equal T) Hb (length executions)
                (bfs_start F) Hnd (reach_start F _)) as [w Hw].
    { simpl. lia. }
    unfold bfs, bfs_walk. rewrite Hw. eauto.
Qed.

(** X10. Exclusion does not prune. When a returned traversal of
    [transform] has popped an execution whose program is on the exclude
    list, it has popped every child of that execution as well: the excluded
    process is passed over and the search goes on below it. *)
Theorem excluded_node_children_visited (T : Tools Semantic)
    (executions : list Execution) :
  ∃ F, Forest_new pid ppid executions = Some F ∧
    ∀ fuel w p e c,
      bfs_walk F (Tools_recognize path_equal T) fuel = Returned w →
      p ∈ visited w → entries F !! p = Some e →
      on_exclude_list path_equal T (command e) = true →
      c ∈ children_of pid ppid executions p →
      c ∈ visited w.
Proof.
  destruct (Forest_new_built pid ppid executions) as (F & HF & Hb).
  exists F. split; [done|]. intros fuel w p e c Hw Hp He Hex Hc.
  destruct (bfs_loop_reach F _ fuel (bfs_start F) w (reach_start F _) Hw)
    as [Hreach Hq].
  destruct (reach_closed pid ppid executions F _ Hb w Hreach) as [_ Hexp].
  rewrite Hq, app_nil_r in Hexp. apply (Hexp p c Hp).
  assert (Hfail : recognized F (Tools_recognize path_equal T) p = false).
  { unfold recognized. rewrite He.
    unfold Tools_recognize, select, select_traced. by rewrite Hex. }
  rewrite (expand_built pid ppid executions F _ Hb), Hfail; [done|].
  apply (reach_logged pid ppid executions F _ Hb w Hreach).
  apply elem_of_app. by left.
Qed.

End ToolsFacts.

Lemma ToolLD_recognize_intro (prog : path) :
  contains_ld (c_str (filename prog)) →
  no_line_terminator (c_str (filename prog)) →
  ToolLD_recognize prog = true.
Proof.
  intros (a & b & Hs) Hno.
  unfold ToolLD_recognize, ToolLD_recognize_traced. simpl.
  apply regex_match_matches, matches_pattern. exists a, b. split; [done|].
  unfold no_line_terminator in *. rewrite Hs in Hno.
  apply Forall_app in Hno as [Ha Hb]. split; [done|].
  by inversion Hb as [|? ? _ Hb']; inversion Hb'.
Qed.

Section FromFacts.
Context {Semantic Wrapper : Type}.
Variable path_equal : path → path → bool.
Variable ToolGcc : Tool Semantic.
Variable ToolClang : Tool Semantic.
Variable ToolWrapper : Tool Semantic.
Variable ToolCuda : Tool Semantic.
Variable ToolExtendingWrapper : Wrapper → Tool Semantic.

Local Abbreviation builtin_tools :=
  (builtin_tools ToolGcc ToolClang ToolWrapper ToolCuda).
Local Abbreviation ToolLD := (ToolLD ToolGcc).
Local Abbreviation Tools_from :=
  (Tools_from ToolGcc ToolClang ToolWrapper ToolCuda ToolExtendingWrapper).

(** X11. In the registry that [from] builds, the five tools of the
    initializer list come before the tools made from
    [compilers_to_recognize]. For a program that is not excluded: when one
    of the five recognizes it, [select] returns one of the five and calls
    [recognize] on no configured wrapper; when none of the five does, the
    choice is the one [select] would make among the configured wrappers
    alone, in the order of the configuration. *)
Theorem from_builtin_tools_first (cfg : Compilation Wrapper)
    (T : Tools Semantic) (c : Command) :
  Tools_from cfg = Ok T →
  on_exclude_list path_equal T c = false →
  ((∃ t, t ∈ builtin_tools ∧ recognize t (program c) = true) →
   ∃ k tool, (k < 5)%nat ∧ builtin_tools !! k = Some tool ∧
     select path_equal T c = Ok tool ∧
     fst (select_traced path_equal T c) = take (S k) builtin_tools) ∧
  ((∀ t, t ∈ builtin_tools → recognize t (program c) = false) →
   select path_equal T c =
     select path_equal
       (mkTools (ToolExtendingWrapper <$> compilers_to_recognize cfg)
                (compilers_to_exclude cfg)) c).
Proof.
  intros [= <-] Hex.
  set (ext := ToolExtendingWrapper <$> compilers_to_recognize cfg) in *.
  change (ToolGcc :: ToolClang :: ToolWrapper :: ToolCuda :: ToolLD :: ext)
    with (builtin_tools ++ ext) in *.
  split.
  - intros (t & Ht & Hrec).
    destruct (first_recognizing_some builtin_tools (program c) t Ht Hrec)
      as (asked & tool & Hscan).
    pose proof (first_recognizing_app_found builtin_tools ext
                  (program c) asked tool Hscan) as Happ.
    apply first_recognizing_found in Hscan as (k & Hk & _ & -> & _).
    exists k, tool. split; [by apply lookup_lt_Some in Hk|].
    split; [done|].
    unfold select, select_traced. rewrite Hex. cbn [tools_].
    by rewrite Happ.
  - intros Hall. unfold select, select_traced.
    unfold on_exclude_list in *. cbn [tools_ to_exclude_] in *. rewrite Hex.
    rewrite (first_recognizing_app_none _ _ _ Hall).
    by destruct (first_recognizing ext (program c)) as [asked [tool|]].
Qed.

(** X12. In the registry that [from] builds, a program that is not
    excluded and whose filename has ["ld"] in it (and no line terminator) is
    never unrecognized: [select] returns one of the five built-in tools,
    and it returns [ToolLD] when the four tools before it do not recognize
    the program. *)
Theorem from_selects_ld_names (cfg : Compilation Wrapper)
    (T : Tools Semantic) (c : Command) :
  Tools_from cfg = Ok T →
  on_exclude_list path_equal T c = false →
  contains_ld (c_str (filename (program c))) →
  no_line_terminator (c_str (filename (program c))) →
  (∃ tool, select path_equal T c = Ok tool ∧ tool ∈ builtin_tools) ∧
  (recognize ToolGcc (program c) = false →
   recognize ToolClang (program c) = false →
   recognize ToolWrapper (program c) = false →
   recognize ToolCuda (program c) = false →
   select path_equal T c = Ok ToolLD).
Proof.
  intros [= <-] Hex Hld Hno.
  set (ext := ToolExtendingWrapper <$> compilers_to_recognize cfg) in *.
  change (ToolGcc :: ToolClang :: ToolWrapper :: ToolCuda :: ToolLD :: ext)
    with (builtin_tools ++ ext) in *.
  pose proof (ToolLD_recognize_intro (program c) Hld Hno) as Hrec.
  split.
  - assert (Hin : ToolLD ∈ builtin_tools) by (do 4 right; left).
    destruct (first_recognizing_some builtin_tools (program c) ToolLD Hin Hrec)
      as (asked & tool & Hscan).
    pose proof (first_recognizing_app_found builtin_tools ext
                  (program c) asked tool Hscan) as Happ.
    apply first_recognizing_found in Hscan as (k & Hk & _).
    exists tool. split; [|by eapply list_elem_of_lookup_2].
    unfold select, select_traced. rewrite Hex. cbn [tools_].
    by rewrite Happ.
  - intros H1 H2 H3 H4.
    assert (Hscan : first_recognizing builtin_tools (program c)
                    = (take 5 builtin_tools, Some ToolLD)).
    { apply (first_recognizing_at _ _ 4%nat); [done | exact Hrec |].
      intros j t Hj Ht.
      destruct j as [|[|[|[|j]]]]; simpl in Ht; try lia;
        injection Ht as <-; done. }
    unfold select, select_traced. rewrite Hex. cbn [tools_].
    by rewrite (first_recognizing_app_found _ _ _ _ _ Hscan).
Qed.

End FromFacts.

Lemma list_ascii_of_string_app (a b : string) :
  list_ascii_of_string (a +:+ b) =
    list_ascii_of_string a ++ list_ascii_of_string b.
Proof. induction a as [|c a IH]; simpl; [done | by rewrite IH]. Qed.

Lemma filename_from_no_separator (seen name : list ascii) :
  "/"%char ∉ name → filename_from seen name = seen ++ name.
Proof.
  revert seen. induction name as [|c name IH]; intros seen Hno; simpl.
  - by rewrite app_nil_r.
  - apply not_elem_of_cons in Hno as [Hc Hno].
    destruct (Ascii.eqb_spec c "/") as [->|_]; [done|].
    rewrite IH by done. by rewrite <- app_assoc.
Qed.

Lemma filename_from_separator (seen dir rest : list ascii) :
  filename_from seen (dir ++ "/"%char :: rest) = filename_from [] rest.
Proof.
  revert seen. induction dir as [|c dir IH]; intros seen; simpl.
  - done.
  - destruct (Ascii.eqb c "/"); apply IH.
Qed.

(** X13. [ToolLD::recognize] looks at the filename alone: for a name
    without a separator, the answer for the name under any directory is the
    answer for the bare name, so ["ld"] in a directory name counts for
    nothing. A path that ends in a separator has an empty filename and is
    not recognized. *)
Theorem ToolLD_ignores_directory (dir name : string) :
  "/"%char ∉ list_ascii_of_string name →
  ToolLD_recognize (dir +:+ "/" +:+ name) = ToolLD_recognize name ∧
  ToolLD_recognize (dir +:+ "/") = false.
Proof.
  intros Hno.
  assert (Hf : ∀ rest, filename (dir +:+ "/" +:+ rest)
                       = filename_from [] (list_ascii_of_string rest)).
  { intros rest. unfold filename.
    rewrite list_ascii_of_string_app. simpl.
    apply filename_from_separator. }
  unfold ToolLD_recognize, ToolLD_recognize_traced. simpl. split.
  - rewrite Hf. fold (filename name). done.
  - replace (dir +:+ "/")%string with (dir +:+ "/" +:+ "")%string by done.
    rewrite Hf. reflexivity.
Qed.

(** ** The statements on concrete logs *)

Ltac by_evaluation := vm_compute; reflexivity.

Ltac list_facts :=
  repeat first
    [ progress intros
    | match goal with
      | |- NoDup _ => apply (bool_decide_unpack _); by_evaluation
      | |- _ ∈ _ => apply (bool_decide_unpack _); by_evaluation
      | |- _ ∉ _ => apply (bool_decide_unpack _); by_evaluation
      end ].

(** The chain A -> B -> C with A recognized: the result is the output of
    A alone, and B and C are never popped. *)
Example chain_pruned :
  ∃ F w, Forest_new pid ppid chain_log = Some F ∧
    bfs_walk F (recognize_only "A") 3 = Returned w ∧
    result w = ["A"%string] ∧ visited w = [1].
Proof. do 2 eexists. repeat split; by_evaluation. Qed.

Lemma success_prunes_subtree_chain :
  NoDup (pid <$> chain_log) ∧
  ∃ F w, Forest_new pid ppid chain_log = Some F ∧
    bfs_walk F (recognize_only "A") (length chain_log) = Returned w ∧
    ∀ v cs c, v ∈ visited w → recognized F (recognize_only "A") v = true →
              nodes F !! v = Some cs → c ∈ cs → c ∉ visited w ++ queue w.
Proof.
  assert (Hnd : NoDup (pid <$> chain_log)) by list_facts.
  split; [exact Hnd|].
  destruct (success_prunes_subtree pid ppid chain_log (recognize_only "A"))
    as (F & HF & _ & Hunique).
  destruct (Hunique Hnd) as [Hpruned (w & Hw & Hreach & _)].
  exists F, w. split; [exact HF|]. split; [exact Hw|].
  intros v cs c. exact (Hpruned w v cs c Hreach).
Defined.

(** C1 as stated fails when an id is logged under two parents: on
    [two_parents_log] node 1 is recognized, 2 is its child, and 2 is
    popped all the same, as a root. *)
Lemma child_of_recognized_node_visited :
  ∃ F w, Forest_new pid ppid two_parents_log = Some F ∧
    bfs_walk F recognize_all 3 = Returned w ∧
    1 ∈ visited w ∧ recognized F recognize_all 1 = true ∧
    nodes F !! 1 = Some [2] ∧ 2 ∈ visited w.
Proof.
  do 2 eexists. split; [by_evaluation|]. split; [by_evaluation|].
  simpl. split; [list_facts|]. split; [by_evaluation|].
  split; [by_evaluation | list_facts].
Qed.

Lemma select_excluded_ld :
  on_exclude_list String.eqb excluding_ld (mkCommand "/usr/bin/ld" []) = true ∧
  recognize ld_tool "/usr/bin/ld" = true ∧
  select_traced String.eqb excluding_ld (mkCommand "/usr/bin/ld" [])
    = ([], Err Excluded).
Proof.
  split; [by_evaluation|]. split; [by_evaluation|].
  apply (select_excluded String.eqb excluding_ld (mkCommand "/usr/bin/ld" [])).
  by_evaluation.
Defined.

Lemma select_first_of_two :
  on_exclude_list String.eqb two_tools (mkCommand "/usr/bin/cc" []) = false ∧
  recognize (any_tool "two") "/usr/bin/cc" = true ∧
  select String.eqb two_tools (mkCommand "/usr/bin/cc" [])
    = Ok (any_tool "one").
Proof.
  split; [by_evaluation|]. split; [by_evaluation|].
  destruct (select_first_match String.eqb two_tools
              (mkCommand "/usr/bin/cc" [])) as (_ & Hfirst & _).
  - by_evaluation.
  - apply (Hfirst O (any_tool "one")); [reflexivity | reflexivity |].
    intros j t Hj. lia.
Defined.

Lemma failure_descends_chain :
  NoDup (pid <$> chain_log) ∧
  ∃ F, Forest_new pid ppid chain_log = Some F ∧
    (∀ fuel, bfs F recognize_none fuel ≠ Thrown) ∧
    ∃ res, bfs F recognize_none (length chain_log) = Returned res.
Proof.
  assert (Hnd : NoDup (pid <$> chain_log)) by list_facts.
  split; [exact Hnd|].
  destruct (failure_descends pid ppid chain_log recognize_none)
    as (F & HF & _ & Hno & Hret).
  exists F. split; [exact HF|]. split; [exact Hno | exact (Hret Hnd)].
Defined.

(** C4 as stated fails on [looping_log]: node 1 is a root and its own
    child, the function fails on it, and the loop pops it for ever. *)
Lemma bfs_never_returns :
  ∃ F, Forest_new pid ppid looping_log = Some F ∧
    ∀ fuel, bfs F recognize_none fuel = Running.
Proof.
  eexists. split; [by_evaluation|].
  match goal with |- ∀ fuel, bfs ?F0 _ _ = _ => set (F := F0) end.
  assert (Hloop : ∀ fuel w, queue w = [1] →
            bfs_loop F recognize_none fuel w = Running).
  { induction fuel as [|fuel IH]; intros w Hq; simpl; rewrite Hq; [done|].
    change (bfs_visit F recognize_none 1 [] w)
      with (Some (mkWalk [1] (result w) (visited w ++ [1]))).
    by apply IH. }
  intros fuel. unfold bfs, bfs_walk. by rewrite Hloop.
Qed.

(** C5 as stated fails on [duplicate_log]: the map keeps the first of the
    two records with id 7, not the last. *)
Lemma last_entry_does_not_win :
  ∃ F, Forest_new pid ppid duplicate_log = Some F ∧
    last_with_id pid duplicate_log 7 = Some (exec "second" 7 1) ∧
    entries F !! 7 = Some (exec "first" 7 1) ∧
    entries F !! 7 ≠ last_with_id pid duplicate_log 7.
Proof.
  eexists. split; [by_evaluation|]. split; [by_evaluation|].
  split; [by_evaluation|]. vm_compute. discriminate.
Qed.

(** Processes 2 and 3 under the unlogged parent 1: the roots are 2 and 3. *)
Example phantom_roots :
  ∃ F, Forest_new pid ppid phantom_log = Some F ∧
    roots F = [2; 3] ∧ nodes F !! 1 = None.
Proof. eexists. repeat split; by_evaluation. Qed.

Lemma phantom_root_promotion_2_3 :
  1 ∈ maybe_roots (scan pid ppid phantom_log) ∧
  s_entries (scan pid ppid phantom_log) !! 1 = None ∧
  ∃ F, Forest_new pid ppid phantom_log = Some F ∧
    nodes F !! 1 = None ∧ (1 ∉ roots F) ∧
    ∃ cs, s_nodes (scan pid ppid phantom_log) !! 1 = Some cs ∧
          ∀ c, c ∈ cs → c ∈ roots F.
Proof.
  assert (H1 : 1 ∈ maybe_roots (scan pid ppid phantom_log)) by by_evaluation.
  assert (H2 : s_entries (scan pid ppid phantom_log) !! 1 = None)
    by by_evaluation.
  split; [exact H1|]. split; [exact H2|].
  exact (phantom_root_promotion pid ppid phantom_log 1 H1 H2).
Defined.

Lemma flatten_unique_ids_chain :
  NoDup (pid <$> chain_log) ∧
  ∃ F w, Forest_new pid ppid chain_log = Some F ∧
    bfs_walk F recognize_none (length chain_log) = Returned w ∧
    NoDup (visited w) ∧
    (∀ x, x ∈ visited w ↔ rooted pid ppid chain_log x) ∧
    ((∀ x, x ∈ pid <$> chain_log → rooted pid ppid chain_log x) →
     visited w ≡ₚ pid <$> chain_log).
Proof.
  assert (Hnd : NoDup (pid <$> chain_log)) by list_facts.
  split; [exact Hnd|].
  apply (flatten_unique_ids pid ppid chain_log recognize_none Hnd).
  intros entry. reflexivity.
Defined.

(** C7 as stated fails on [self_parent_log]: id 1 is logged once, and the
    flattened forest is empty. *)
Lemma flatten_misses_self_parent :
  NoDup (pid <$> self_parent_log) ∧
  ∃ F w, Forest_new pid ppid self_parent_log = Some F ∧
    bfs_walk F recognize_none 1 = Returned w ∧
    visited w = [] ∧
    ¬ (visited w ≡ₚ pid <$> self_parent_log).
Proof.
  split; [list_facts|].
  do 2 eexists. split; [by_evaluation|]. split; [by_evaluation|].
  split; [reflexivity|]. simpl.
  intros Hperm. by apply Permutation_nil_l in Hperm.
Qed.

Lemma bfs_terminates_mixed :
  NoDup (pid <$> mixed_log) ∧
  ∃ F w, Forest_new pid ppid mixed_log = Some F ∧
    bfs_walk F (recognize_only "cc") (length mixed_log) = Returned w ∧
    queue w = [] ∧ NoDup (visited w) ∧
    ∀ w', walk_reach F (recognize_only "cc") w' →
          NoDup (visited w' ++ queue w').
Proof.
  assert (Hnd : NoDup (pid <$> mixed_log)) by list_facts.
  split; [exact Hnd|].
  exact (bfs_terminates_unique_ids pid ppid mixed_log (recognize_only "cc")
           Hnd).
Defined.

(** On [mixed_log] the self-parent 1 is out of reach; 2 fails and its
    children 3 and 4 follow in log order. *)
Example mixed_order :
  ∃ F w, Forest_new pid ppid mixed_log = Some F ∧
    bfs_walk F (recognize_only "cc") 4 = Returned w ∧
    roots F = [2] ∧ visited w = [2; 3; 4] ∧ result w = ["cc"%string].
Proof. do 2 eexists. repeat split; by_evaluation. Qed.

Lemma breadth_first_order_mixed :
  ∃ F, Forest_new pid ppid mixed_log = Some F ∧
    Sorted Z.le (roots F) ∧
    ∀ fuel w, bfs_walk F (recognize_only "cc") fuel = Returned w →
      result w = flat_map (outputs_at F (recognize_only "cc")) (visited w) ∧
      ∃ k, level F (recognize_only "cc") k = [] ∧
           visited w = levels_upto F (recognize_only "cc") k.
Proof.
  destruct (breadth_first_order pid ppid mixed_log (recognize_only "cc"))
    as (F & HF & Hsorted & _ & _ & _ & _ & Hret).
  exists F. split; [exact HF|]. split; [exact Hsorted | exact Hret].
Defined.

(** Names that hold ld are taken for the linker. *)
Example ToolLD_recognizes_gold :
  ToolLD_recognize "/usr/bin/gold" = true ∧ ToolLD_recognize "ldd" = true ∧
  ToolLD_recognize "fold" = true ∧ ToolLD_recognize "/usr/bin/ld" = true ∧
  ToolLD_recognize "/opt/ld/gcc" = false.
Proof. repeat split; by_evaluation. Qed.

(** C10 as stated fails on a filename with a line feed in it. *)
Lemma ToolLD_rejects_line_feed :
  contains_ld (c_str (filename ld_newline)) ∧
  ToolLD_recognize ld_newline = false.
Proof.
  split; [|by_evaluation].
  exists [], ["010"%char]. by_evaluation.
Qed.

(** The scenario of two records: cc1 under the unlogged parent 0 and as
    under cc1; one entry comes out. *)
Example end_to_end :
  transform String.eqb
    (mkTools [mkTool "cc1" (String.eqb "cc1") (λ c, Ok [program c])] [])
    Some 2 [exec "cc1" 1 0; exec "as" 2 1]
  = Returned ["cc1"%string].
Proof. by_evaluation. Qed.

(** ** More statements on concrete logs *)

Lemma candidate_roots_are_phantoms_1 :
  1 ∈ maybe_roots (scan pid ppid phantom_log) ∧
  s_entries (scan pid ppid phantom_log) !! 1 = None ∧
  (1 ∉ non_roots (scan pid ppid phantom_log)) ∧
  ∃ cs, s_nodes (scan pid ppid phantom_log) !! 1 = Some cs ∧ cs ≠ [].
Proof.
  assert (H1 : 1 ∈ maybe_roots (scan pid ppid phantom_log)) by by_evaluation.
  split; [exact H1|].
  exact (candidate_roots_are_phantoms pid ppid phantom_log 1 H1).
Defined.

(** A cycle of two pids: no root, nothing returned. *)
Lemma roots_are_orphans_cycle :
  (∀ e, e ∈ cycle_log → ppid e ∈ pid <$> cycle_log) ∧
  ∃ F, Forest_new pid ppid cycle_log = Some F ∧ roots F = [] ∧
    ∀ fuel, bfs F recognize_all fuel = Returned [].
Proof.
  assert (Hall : ∀ e, e ∈ cycle_log → ppid e ∈ pid <$> cycle_log).
  { intros e He. unfold cycle_log in He.
    repeat (apply elem_of_cons in He as [->|He]; [list_facts|]).
    by apply elem_of_nil in He. }
  split; [exact Hall|].
  destruct (roots_are_orphans pid ppid cycle_log recognize_all)
    as (F & HF & _ & Hempty & Hbfs).
  exists F. split; [exact HF|]. split; [|exact (Hbfs Hall)].
  apply Hempty. exact Hall.
Defined.

Lemma forest_of_permuted_chain :
  chain_log ≡ₚ chain_log_shuffled ∧
  ∃ F F', Forest_new pid ppid chain_log = Some F ∧
    Forest_new pid ppid chain_log_shuffled = Some F' ∧
    roots F = roots F' ∧ entries F = entries F'.
Proof.
  assert (Hperm : chain_log ≡ₚ chain_log_shuffled).
  { symmetry. apply (Permutation_cons_append [exec "A" 1 0; exec "B" 2 1]). }
  assert (Hnd : NoDup (pid <$> chain_log)) by list_facts.
  split; [exact Hperm|].
  destruct (forest_of_permuted_log pid ppid chain_log chain_log_shuffled Hperm)
    as (F & F' & HF & HF' & Hroots & _ & _ & Hentries).
  exists F, F'. split; [exact HF|]. split; [exact HF'|].
  split; [exact Hroots | exact (Hentries Hnd)].
Defined.

Lemma recognized_node_hides_descendants_chain :
  NoDup (pid <$> chain_log) ∧
  descends pid ppid chain_log 1 3 ∧
  ∃ F w, Forest_new pid ppid chain_log = Some F ∧
    bfs_walk F (recognize_only "A") (length chain_log) = Returned w ∧
    ∀ v x, v ∈ visited w → recognized F (recognize_only "A") v = true →
           descends pid ppid chain_log v x → x ∉ visited w ++ queue w.
Proof.
  assert (Hnd : NoDup (pid <$> chain_log)) by list_facts.
  split; [exact Hnd|]. split.
  - apply (descends_step pid ppid chain_log (exec "C" 3 2));
      [repeat constructor|].
    apply (descends_child pid ppid chain_log (exec "B" 2 1)).
    repeat constructor.
  - destruct (recognized_node_hides_descendants pid ppid chain_log
                (recognize_only "A") Hnd) as (F & HF & Hhide & w & Hw & Hreach).
    exists F, w. split; [exact HF|]. split; [exact Hw|].
    intros v x. exact (Hhide w v x Hreach).
Defined.

Lemma from_builtin_tools_first_gcc :
  ∃ T, sample_tools = Ok T ∧
    on_exclude_list String.eqb T (mkCommand "gcc" []) = false ∧
    (∃ k tool, (k < 5)%nat ∧
       select String.eqb T (mkCommand "gcc" []) = Ok tool ∧
       fst (select_traced String.eqb T (mkCommand "gcc" []))
         = take (S k) (builtin_tools (named_tool "gcc") (named_tool "clang")
                         (named_tool "ccache") (named_tool "nvcc"))) ∧
    select String.eqb T (mkCommand "/opt/bin/mycc" [])
      = Ok (named_tool "/opt/bin/mycc").
Proof.
  eexists. split; [reflexivity|].
  split; [by_evaluation|]. split.
  - destruct (from_builtin_tools_first String.eqb (named_tool "gcc")
                (named_tool "clang") (named_tool "ccache") (named_tool "nvcc")
                named_tool sample_cfg _ (mkCommand "gcc" []) eq_refl)
      as [Hbuiltin _]; [by_evaluation|].
    destruct Hbuiltin as (k & tool & Hk & _ & Hsel & Hasked).
    + exists (named_tool "gcc"). split; [left | reflexivity].
    + exists k, tool. split; [exact Hk|]. split; [exact Hsel | exact Hasked].
  - destruct (from_builtin_tools_first String.eqb (named_tool "gcc")
                (named_tool "clang") (named_tool "ccache") (named_tool "nvcc")
                named_tool sample_cfg _ (mkCommand "/opt/bin/mycc" []) eq_refl)
      as [_ Hwrappers]; [by_evaluation|].
    rewrite Hwrappers; [reflexivity|].
    intros t Ht. unfold builtin_tools in Ht.
    repeat (apply elem_of_cons in Ht as [->|Ht]; [reflexivity|]).
    by apply elem_of_nil in Ht.
Defined.

Lemma from_selects_ld_names_gold :
  ∃ T, sample_tools = Ok T ∧
    on_exclude_list String.eqb T (mkCommand "/usr/bin/gold" []) = false ∧
    select String.eqb T (mkCommand "/usr/bin/gold" [])
      = Ok (ToolLD (named_tool "gcc")).
Proof.
  eexists. split; [reflexivity|]. split; [by_evaluation|].
  destruct (from_selects_ld_names String.eqb (named_tool "gcc")
              (named_tool "clang") (named_tool "ccache") (named_tool "nvcc")
              named_tool sample_cfg _ (mkCommand "/usr/bin/gold" []) eq_refl)
    as [_ Hld].
  - by_evaluation.
  - exists ["g"; "o"]%char, []. by_evaluation.
  - unfold no_line_terminator. vm_compute. repeat constructor.
  - apply Hld; reflexivity.
Defined.

Lemma ToolLD_ignores_directory_opt_ld :
  ("/"%char ∉ list_ascii_of_string "gcc") ∧
  ToolLD_recognize "/opt/ld/gcc" = ToolLD_recognize "gcc" ∧
  ToolLD_recognize "/usr/bin/ld/" = false.
Proof.
  assert (Hno : "/"%char ∉ list_ascii_of_string "gcc") by list_facts.
  split; [exact Hno|].
  split.
  - exact (proj1 (ToolLD_ignores_directory "/opt/ld" "gcc" Hno)).
  - exact (proj2 (ToolLD_ignores_directory "/usr/bin/ld" "gcc" Hno)).
Defined.

(** A flat log comes out in pid order, not in log order. *)
Lemma recognized_roots_in_id_order_flat :
  ∃ F, Forest_new pid ppid flat_log = Some F ∧
    (∀ x, x ∈ roots F → recognized F recognize_all x = true) ∧
    bfs F recognize_all 2 = Returned ["cc a.c"; "cc b.c"]%string.
Proof.
  destruct (recognized_roots_in_id_order pid ppid flat_log recognize_all)
    as (F & HF & _ & Hbfs).
  exists F. split; [exact HF|].
  vm_compute in HF. injection HF as <-.
  match type of Hbfs with ?P → _ => assert (Hall : P) end.
  { intros x Hx. simpl in Hx.
    repeat (apply elem_of_cons in Hx as [->|Hx]; [by_evaluation|]).
    by apply elem_of_nil in Hx. }
  split; [exact Hall|].
  specialize (Hbfs Hall). change (length (roots _)) with 2%nat in Hbfs.
  unfold bfs. rewrite Hbfs. by_evaluation.
Defined.
